(** * anki_to_json: a shallow embedding of the converter and its properties

    The program reads an Anki collection archive, projects decks, notes and
    cards into a JSON document and copies the media files.  Python strings
    are sequences of Unicode code points, so a string is a list of code
    points here; dictionaries keep their insertion order, so they are
    association lists with unique keys. *)

From stdpp Require Import base numbers list option sorting strings.
From Stdlib Require Import Strings.Ascii Numbers.DecimalString.

Set Warnings "-register-all".


(** ** Python strings *)

Abbreviation char := N (only parsing).
Abbreviation str := (list N) (only parsing).

(** An ASCII literal as a Python string. *)
Fixpoint lit (s : string) : str :=
  match s with
  | EmptyString => []
  | String a r => N_of_ascii a :: lit r
  end.
Arguments lit : simpl never.

Module Py.

(** [str.isspace] on one code point (CPython's Py_UNICODE_ISSPACE); the
    same predicate backs [str.strip()] and the regular-expression class
    [\s] on text patterns. *)
Definition isspace (c : char) : bool :=
  ((9 <=? c) && (c <=? 13) || (28 <=? c) && (c <=? 32)
   || (c =? 133) || (c =? 160) || (c =? 5760)
   || (8192 <=? c) && (c <=? 8202)
   || (c =? 8232) || (c =? 8233) || (c =? 8239) || (c =? 8287)
   || (c =? 12288))%N.

Fixpoint lstrip (s : str) : str :=
  match s with
  | c :: t => if isspace c then lstrip t else s
  | [] => []
  end.

Definition rstrip (s : str) : str := reverse (lstrip (reverse s)).

(** [s.strip()] *)
Definition strip (s : str) : str := rstrip (lstrip s).

(** [s.startswith(p)] *)
Fixpoint startswith (p s : str) : bool :=
  match p, s with
  | [], _ => true
  | a :: p', b :: s' => (a =? b)%N && startswith p' s'
  | _ :: _, [] => false
  end.

(** The longest prefix of [s] whose characters all differ from [stop],
    and what follows it. *)
Fixpoint span_not (stop : char) (s : str) : str * str :=
  match s with
  | [] => ([], [])
  | c :: t =>
      if (c =? stop)%N then ([], s)
      else let '(x, r) := span_not stop t in (c :: x, r)
  end.

(** Left-to-right replacement of non-overlapping matches, the common
    engine of [re.sub] and [str.replace].  [m s] tries to match at the
    head of [s] and yields the replacement text and the number of
    characters matched (at least one for every matcher below).  [skip]
    counts the characters of the last match still to be passed over. *)
Fixpoint sub_scan (m : str → option (str * nat)) (skip : nat) (s : str) : str :=
  match s with
  | [] => []
  | c :: t =>
      match skip with
      | S k => sub_scan m k t
      | O =>
          match m s with
          | Some (repl, n) => repl ++ sub_scan m (pred n) t
          | None => c :: sub_scan m 0 t
          end
      end
  end.

Definition sub (m : str → option (str * nat)) (s : str) : str := sub_scan m 0 s.

(** [s.replace(old, new)] for a non-empty [old]. *)
Definition replace (old new : str) (s : str) : str :=
  sub (λ r, if startswith old r then Some (new, length old) else None) s.

(** [sep.join(parts)] *)
Fixpoint join (sep : str) (parts : list str) : str :=
  match parts with
  | [] => []
  | [p] => p
  | p :: rest => p ++ sep ++ join sep rest
  end.

(** [s.split(sep)] for a non-empty [sep]; [cur] is the segment being
    read, reversed. *)
Fixpoint split_scan (sep : str) (skip : nat) (cur : str) (s : str) : list str :=
  match s with
  | [] => [reverse cur]
  | c :: t =>
      match skip with
      | S k => split_scan sep k cur t
      | O =>
          if startswith sep s
          then reverse cur :: split_scan sep (pred (length sep)) [] t
          else split_scan sep 0 (c :: cur) t
      end
  end.

Definition split (sep : str) (s : str) : list str := split_scan sep 0 [] s.

End Py.

(** ** The regular expressions of the sanitizer, compiled by hand

    Every pattern is a literal prefix, a greedy run over a class that
    excludes the closing character, and the closing character, so the
    backtracking matcher of [re] has a single way to succeed at a given
    position. *)

Module Re.

Definition c_lt : char := 60%N.      (* < *)
Definition c_gt : char := 62%N.      (* > *)
Definition c_slash : char := 47%N.   (* / *)
Definition c_quote : char := 34%N.   (* double quote *)
Definition c_lbrack : char := 91%N.  (* [ *)
Definition c_rbrack : char := 93%N.  (* ] *)
Definition c_amp : char := 38%N.     (* & *)
Definition c_nl : char := 10%N.      (* newline *)

(** [\[sound:([^\]]+)\]] at the head of [s]: the captured name and the
    length of the match. *)
Definition m_sound (s : str) : option (str * nat) :=
  if Py.startswith (lit "[sound:") s then
    match Py.span_not c_rbrack (drop 7 s) with
    | ((_ :: _) as x, _ :: _) => Some (x, 7 + length x + 1)
    | _ => None
    end
  else None.

(** [<br\s*/?>] with IGNORECASE at the head of [s]: the length of the
    match. *)
Definition m_br (s : str) : option nat :=
  match s with
  | lt :: b :: r :: rest =>
      if ((lt =? c_lt) && ((b =? 98) || (b =? 66)) && ((r =? 114) || (r =? 82)))%N then
        let ws := length rest - length (Py.lstrip rest) in
        match Py.lstrip rest with
        | c :: rest' =>
            if (c =? c_gt)%N then Some (3 + ws + 1)
            else if (c =? c_slash)%N then
              match rest' with
              | c' :: _ => if (c' =? c_gt)%N then Some (3 + ws + 2) else None
              | [] => None
              end
            else None
        | [] => None
        end
      else None
  | _ => None
  end.

(** [<[^>]+>] at the head of [s]: the length of the match. *)
Definition m_tag (s : str) : option nat :=
  match s with
  | lt :: rest =>
      if (lt =? c_lt)%N then
        match Py.span_not c_gt rest with
        | ((_ :: _) as x, _ :: _) => Some (1 + length x + 1)
        | _ => None
        end
      else None
  | [] => None
  end.

(** The [src] attribute pattern at the head of [s]: the literal [src=]
    and an opening double quote, two negative lookaheads refusing a
    value that starts with [media/] or with [http], a greedy non-empty
    run of characters other than the double quote (the captured value)
    and the closing double quote.  Yields the captured value and the
    length of the match. *)
Definition m_src (s : str) : option (str * nat) :=
  if Py.startswith (lit "src=" ++ [c_quote]) s then
    let r := drop 5 s in
    if Py.startswith (lit "media/") r then None
    else if Py.startswith (lit "http") r then None
    else
      match Py.span_not c_quote r with
      | ((_ :: _) as x, _ :: _) => Some (x, 5 + length x + 1)
      | _ => None
      end
  else None.

End Re.

(** ** Text sanitizer *)

(** [clean_html]: plain text of a field. *)
Definition clean_html (text : str) : str :=
  match text with
  | [] => []
  | _ =>
      let text := Py.sub (λ s, (λ '(_, n), ([], n)) <$> Re.m_sound s) text in
      let text := Py.sub (λ s, (λ n, ([Re.c_nl], n)) <$> Re.m_br s) text in
      let text := Py.sub (λ s, (λ n, ([], n)) <$> Re.m_tag s) text in
      let text := Py.replace (lit "&nbsp;") (lit " ") text in
      let text := Py.replace (lit "&lt;") (lit "<") text in
      let text := Py.replace (lit "&gt;") (lit ">") text in
      let text := Py.replace (lit "&amp;") (lit "&") text in
      let text := Py.replace (lit "&quot;") [Re.c_quote] text in
      Py.strip text
  end.

(** [fix_media_paths]: display markup of a field. *)
Definition fix_media_paths (html : str) : str :=
  match html with
  | [] => []
  | _ =>
      let html :=
        Py.sub (λ s, (λ '(x, n), (lit "src=" ++ [Re.c_quote] ++ lit "media/" ++ x ++ [Re.c_quote], n))
                       <$> Re.m_src s) html in
      let html :=
        Py.sub (λ s, (λ '(x, n), (lit "<audio controls src=" ++ [Re.c_quote] ++ lit "media/" ++ x
                                    ++ [Re.c_quote] ++ lit "></audio>", n))
                       <$> Re.m_sound s) html in
      html
  end.

(** ** Insertion-ordered dictionaries

    A Python [dict] iterates in insertion order and assigning to a key that
    is present keeps its position, so a dictionary is an association list
    in which [set] replaces in place or appends. *)

Module Dict.
Section dict.
Context {K V : Type} `{EqDecision K}.

Fixpoint get (k : K) (d : list (K * V)) : option V :=
  match d with
  | [] => None
  | (k', v) :: r => if decide (k = k') then Some v else get k r
  end.

Fixpoint set (k : K) (v : V) (d : list (K * V)) : list (K * V) :=
  match d with
  | [] => [(k, v)]
  | (k', v') :: r => if decide (k = k') then (k, v) :: r else (k', v') :: set k v r
  end.

(** The dictionary a sequence of key/value pairs builds, as [dict(pairs)]
    and [json.loads] on an object do: a later duplicate overwrites. *)
Definition of_pairs (l : list (K * V)) : list (K * V) :=
  foldl (λ d kv, set kv.1 kv.2 d) [] l.

Definition values (d : list (K * V)) : list V := d.*2.
Definition keys (d : list (K * V)) : list K := d.*1.
End dict.
End Dict.

(** ** Exceptions and results *)

Inductive exn :=
  | TypeError | AttributeError | JSONDecodeError | UnicodeDecodeError
  | KeyError | BadZipFile | FileExistsError | OSError
  | FileNotFoundError (msg : str).

Inductive result (A : Type) :=
  | Ok (a : A)
  | Raise (e : exn).
Arguments Ok {A} a.
Arguments Raise {A} e.

#[global] Instance result_ret : MRet result := λ A a, Ok a.
#[global] Instance result_fmap : FMap result := λ A B f r,
  match r with
  | Ok a => Ok (f a)
  | Raise e => Raise e
  end.
#[global] Instance result_bind : MBind result := λ A B k r,
  match r with
  | Ok a => k a
  | Raise e => Raise e
  end.

(** ** JSON values, as [json.loads] returns them *)

Inductive json :=
  | JNull
  | JBool (b : bool)
  | JNum (literal : str)
  | JStr (s : str)
  | JArr (elems : list json)
  | JObj (pairs : list (str * json)).

(** ** Deck tree builder *)

Record deck := { d_id : str; d_name : str }.

(** A node object on the heap; [n_children] holds references. *)
Record node := {
  n_id : str;
  n_name : str;
  n_fullPath : str;
  n_children : list nat
}.

(** The tree as the caller sees it once the references are followed. *)
Inductive DeckNode :=
  | mkDeckNode (id name fullPath : str) (children : list DeckNode).

(** The mutable state of [build_deck_tree]: the node objects, the
    dictionary from full paths to node references and the root list. *)
Record tree_state := {
  heap : list node;
  deck_map : list (str * nat);
  root_nodes : list nat
}.

(** [a <= b] on strings, code point by code point. *)
Fixpoint str_le (a b : str) : bool :=
  match a, b with
  | [], _ => true
  | _ :: _, [] => false
  | x :: a', y :: b' =>
      if (x <? y)%N then true else if (x =? y)%N then str_le a' b' else false
  end.

Fixpoint insert_by_name (d : deck) (l : list deck) : list deck :=
  match l with
  | [] => [d]
  | e :: r => if str_le (d_name d) (d_name e) then d :: l else e :: insert_by_name d r
  end.

(** [sorted(decks, key=lambda d: d["name"])]: stable. *)
Definition sorted_by_name (l : list deck) : list deck := foldr insert_by_name [] l.

Definition append_child (h : nat) (nd : node) : node :=
  {| n_id := n_id nd; n_name := n_name nd; n_fullPath := n_fullPath nd;
     n_children := n_children nd ++ [h] |}.

(** The path of the next segment: [current_path + "::" + part] if
    [current_path] is non-empty, [part] otherwise. *)
Definition child_path (current_path part : str) : str :=
  match current_path with
  | [] => part
  | _ => current_path ++ lit "::" ++ part
  end.

Definition new_node (dk : deck) (current_path part : str) : node :=
  {| n_id := if decide (current_path = d_name dk) then d_id dk
             else lit "virtual_" ++ current_path;
     n_name := part;
     n_fullPath := current_path;
     n_children := [] |}.

(** Is some root's [fullPath] equal to [current_path]? *)
Definition root_exists (hp : list node) (roots : list nat) (current_path : str) : bool :=
  existsb (λ r, match hp !! r with
                | Some root => bool_decide (n_fullPath root = current_path)
                | None => false
                end) roots.

(** The body of [if current_path not in deck_map]: the node is allocated,
    entered in [deck_map] and hung under its parent or in the root list. *)
Definition attach (st : tree_state) (parent : option nat) (nd : node) : tree_state :=
  let h := length (heap st) in
  let hp := heap st ++ [nd] in
  let dm := Dict.set (n_fullPath nd) h (deck_map st) in
  match parent with
  | Some p =>
      {| heap := alter (append_child h) p hp; deck_map := dm;
         root_nodes := root_nodes st |}
  | None =>
      {| heap := hp; deck_map := dm;
         root_nodes := if root_exists hp (root_nodes st) (n_fullPath nd)
                       then root_nodes st else root_nodes st ++ [h] |}
  end.

(** One iteration of the inner loop, for the segment [part] of [dk]. *)
Definition visit_part (dk : deck) (acc : tree_state * str * option nat) (part : str)
  : tree_state * str * option nat :=
  let '(st, current_path, parent) := acc in
  let current_path := child_path current_path part in
  let st :=
    match Dict.get current_path (deck_map st) with
    | Some _ => st
    | None => attach st parent (new_node dk current_path part)
    end in
  (st, current_path, Dict.get current_path (deck_map st)).

(** One iteration of the outer loop. *)
Definition visit_deck (st : tree_state) (dk : deck) : tree_state :=
  (foldl (visit_part dk) (st, [], None) (Py.split (lit "::") (d_name dk))).1.1.

(** Following the references from [hs]; [fuel] bounds the depth. *)
Fixpoint reify (fuel : nat) (hp : list node) (hs : list nat) : list DeckNode :=
  match fuel with
  | O => []
  | S fuel' =>
      hs ≫= λ h,
        match hp !! h with
        | Some nd =>
            [mkDeckNode (n_id nd) (n_name nd) (n_fullPath nd)
                        (reify fuel' hp (n_children nd))]
        | None => []
        end
  end.

Definition build_state (decks : list (str * deck)) : tree_state :=
  foldl visit_deck {| heap := []; deck_map := []; root_nodes := [] |}
        (sorted_by_name (Dict.values decks)).

Definition build_deck_tree (decks : list (str * deck)) : list DeckNode :=
  let st := build_state decks in
  reify (length (heap st)) (heap st) (root_nodes st).

Definition node_id (t : DeckNode) : str := let 'mkDeckNode i _ _ _ := t in i.
Definition node_name (t : DeckNode) : str := let 'mkDeckNode _ n _ _ := t in n.
Definition node_fullPath (t : DeckNode) : str := let 'mkDeckNode _ _ f _ := t in f.
Definition node_children (t : DeckNode) : list DeckNode :=
  let 'mkDeckNode _ _ _ c := t in c.

(** Every node of a tree, the root first. *)
Fixpoint all_nodes (t : DeckNode) : list DeckNode :=
  match t with
  | mkDeckNode _ _ _ c => t :: (c ≫= all_nodes)
  end.

(** Every node of the returned list of trees. *)
Definition tree_nodes (ts : list DeckNode) : list DeckNode := ts ≫= all_nodes.

(** The tree node [t] shows the heap node [nd]. *)
Definition labelled (t : DeckNode) (nd : node) : Prop :=
  node_id t = n_id nd ∧ node_name t = n_name nd ∧ node_fullPath t = n_fullPath nd.

(** Does every node below [t] carry as [fullPath] the names from the root
    down to itself, joined by [::]?  [above] holds the names of the
    ancestors of [t]. *)
Fixpoint joined_paths (above : list str) (t : DeckNode) : bool :=
  match t with
  | mkDeckNode _ n f c =>
      bool_decide (f = Py.join (lit "::") (above ++ [n]))
      && forallb (joined_paths (above ++ [n])) c
  end.

(** The places that hold a reference to a node: the root list and the
    [children] lists. *)
Definition slots (st : tree_state) : list nat :=
  root_nodes st ++ mjoin (n_children <$> heap st).

(** The children of the node behind a reference. *)
Definition children_of (hp : list node) (h : nat) : list nat :=
  match hp !! h with
  | Some nd => n_children nd
  | None => []
  end.

(** The references met while following [hs], in the order of [reify]. *)
Fixpoint handles (fuel : nat) (hp : list node) (hs : list nat) : list nat :=
  match fuel with
  | O => []
  | S fuel' =>
      hs ≫= λ h,
        match hp !! h with
        | Some nd => h :: handles fuel' hp (n_children nd)
        | None => []
        end
  end.

(** What holds of the state between two iterations, [dks] being the
    decks of the outer loop. *)
Record tree_inv (dks : list deck) (st : tree_state) : Prop := {
  inv_map p h :
    Dict.get p (deck_map st) = Some h
    ↔ ∃ nd, heap st !! h = Some nd ∧ n_fullPath nd = p;
  inv_slots_NoDup : NoDup (slots st);
  inv_slots h : h ∈ slots st ↔ h < length (heap st);
  inv_order h nd c : heap st !! h = Some nd → c ∈ n_children nd → h < c;
  inv_ids h nd :
    heap st !! h = Some nd →
    n_id nd = lit "virtual_" ++ n_fullPath nd
    ∨ ∃ dk, dk ∈ dks ∧ n_id nd = d_id dk ∧ n_fullPath nd = d_name dk;
  inv_child_path h nd c cd :
    heap st !! h = Some nd → c ∈ n_children nd → heap st !! c = Some cd →
    n_fullPath cd = child_path (n_fullPath nd) (n_name cd);
  inv_root_path r nd :
    r ∈ root_nodes st → heap st !! r = Some nd → n_fullPath nd = n_name nd
}.

(** [parent] is the node of [current_path], or nothing has been read. *)
Definition linked (st : tree_state) (current_path : str) (parent : option nat) : Prop :=
  match parent with
  | None => current_path = []
  | Some p => ∃ nd, heap st !! p = Some nd ∧ n_fullPath nd = current_path
  end.

(** A node keeps its identifier, name and path. *)
Definition same_label (a b : node) : Prop :=
  n_id a = n_id b ∧ n_name a = n_name b ∧ n_fullPath a = n_fullPath b.

Definition grows (st st' : tree_state) : Prop :=
  ∀ h nd, heap st !! h = Some nd → ∃ nd', heap st' !! h = Some nd' ∧ same_label nd' nd.

(** The paths the inner loop goes through from [current_path]. *)
Fixpoint paths_from (current_path : str) (parts : list str) : list str :=
  match parts with
  | [] => []
  | part :: rest =>
      child_path current_path part :: paths_from (child_path current_path part) rest
  end.

(** The node of the empty path has no child. *)
Definition no_empty_parent (st : tree_state) : Prop :=
  ∀ h nd, heap st !! h = Some nd → n_fullPath nd = [] → n_children nd = [].

(** The inner loop is about to hang a node under the empty path only if
    this is false. *)
Definition safe_parts (current_path : str) (parent : option nat) (parts : list str) : Prop :=
  match parent with
  | None => match parts with p0 :: _ :: _ => p0 ≠ [] | _ => True end
  | Some _ => current_path ≠ [] ∨ parts = []
  end.

(** ** Collection parser *)

(** A row of [SELECT id, mid, flds, tags FROM notes]. *)
Record note_row := {
  note_id : Z;
  note_mid : Z;
  note_flds : option str;
  note_tags : option str
}.

(** A row of [SELECT id, nid, did, ord FROM cards]. *)
Record card_row := {
  card_id : Z;
  card_nid : Z;
  card_did : Z;
  card_ord : Z
}.

(** What the three queries of [parse_anki_collection] return: the first
    row of [col] if there is one (two nullable text columns), the rows of
    [notes], and the rows of [cards] as [ORDER BY ord] delivers them. *)
Record database := {
  col : option (option str * option str);
  notes_table : list note_row;
  cards_by_ord : list card_row
}.

(** ORDER BY promises ascending [ord] and nothing about ties. *)
Definition ordered_by_ord (rows : list card_row) : Prop :=
  Sorted (λ a b, (card_ord a ≤ card_ord b)%Z) rows.

Record note := {
  nt_id : Z;
  nt_model_id : Z;
  nt_fields : list str
}.

Record Card := {
  deckId : str;
  front : str;
  frontClean : str;
  back : str;
  backClean : str
}.

Record output := {
  decks : list DeckNode;
  cards : list Card
}.

(** [str(n)] for an integer. *)
Definition str_of_Z (n : Z) : str := lit (NilEmpty.string_of_int (Z.to_int n)).

Definition unit_separator : char := 31%N.

Definition read_notes (rows : list note_row) : list (Z * note) :=
  foldl (λ notes r,
    let field_list :=
      match note_flds r with
      | Some ((_ :: _) as fields) => Py.split [unit_separator] fields
      | _ => []
      end in
    Dict.set (note_id r)
      {| nt_id := note_id r; nt_model_id := note_mid r; nt_fields := field_list |} notes)
    [] rows.

Definition make_card (notes : list (Z * note)) (row : card_row) : Card :=
  let fields :=
    match Dict.get (card_nid row) notes with
    | Some nt => nt_fields nt
    | None => []
    end in
  let front := match fields with f :: _ => f | [] => [] end in
  let back_parts := if bool_decide (1 < length fields) then drop 1 fields else [] in
  let back := Py.join (lit "<br>") (filter (λ part, Py.strip part ≠ []) back_parts) in
  {| deckId := str_of_Z (card_did row);
     front := fix_media_paths front;
     frontClean := clean_html front;
     back := fix_media_paths back;
     backClean := clean_html back |}.

(** One iteration of the loop over the cards. *)
Definition collect_card (notes : list (Z * note)) (cards_by_note : list (Z * Card))
    (row : card_row) : list (Z * Card) :=
  match Dict.get (card_nid row) cards_by_note with
  | Some _ => cards_by_note
  | None => Dict.set (card_nid row) (make_card notes row) cards_by_note
  end.

Definition collect_cards (notes : list (Z * note)) (rows : list card_row) : list (Z * Card) :=
  foldl (collect_card notes) [] rows.

Definition default_labels : list str :=
  [lit "default"; lit "par d" ++ [233%N] ++ lit "faut"].

Section parser.
(** [str.lower] and [json.loads] belong to the Python library; the
    parser is modelled for any behaviour of theirs. *)
Variable lower : str → str.
Variable json_loads : str → result json.

(** [json.loads(x) if x else {}] *)
Definition loads_or_empty (x : option str) : result json :=
  match x with
  | Some ((_ :: _) as text) => json_loads text
  | _ => Ok (JObj [])
  end.

(** [v.items()] *)
Definition items (v : json) : result (list (str * json)) :=
  match v with
  | JObj pairs => Ok (Dict.of_pairs pairs)
  | _ => Raise AttributeError
  end.

(** [deck_info.get("name", "Unknown")], which must be a string for
    [.lower()] to exist. *)
Definition deck_name (deck_info : json) : result str :=
  fields ← items deck_info;
  match default (JStr (lit "Unknown")) (Dict.get (lit "name") fields) with
  | JStr name => Ok name
  | _ => Raise AttributeError
  end.

(** The loop that fills [decks], skipping the default deck. *)
Fixpoint read_decks (its : list (str * json)) (dks : list (str * deck))
  : result (list (str * deck)) :=
  match its with
  | [] => Ok dks
  | (deck_id, deck_info) :: rest =>
      name ← deck_name deck_info;
      if bool_decide (lower name ∈ default_labels) then read_decks rest dks
      else read_decks rest (Dict.set deck_id {| d_id := deck_id; d_name := name |} dks)
  end.

(** The configuration row and [decks_json.items()]. *)
Definition config_decks (db : database) : result (list (str * json)) :=
  match col db with
  | None => Raise TypeError
  | Some (row0, row1) =>
      decks_json ← loads_or_empty row0;
      tags_json ← loads_or_empty row1;
      items decks_json
  end.

(** The part of [parse_anki_collection] that fills [decks]. *)
Definition parse_decks (db : database) : result (list (str * deck)) :=
  its ← config_decks db;
  read_decks its [].

Definition parse_anki_collection (db : database) : result output :=
  dks ← parse_decks db;
  let notes := read_notes (notes_table db) in
  let cards_by_note := collect_cards notes (cards_by_ord db) in
  Ok {| decks := build_deck_tree dks; cards := Dict.values cards_by_note |}.
End parser.

(** ** Archive reader *)

(** [bytes.decode('utf-8')], strict: no overlong forms, no surrogates,
    nothing above U+10FFFF. *)
Definition cont (b : N) : bool := ((128 <=? b) && (b <=? 191))%N.

Fixpoint utf8_decode (bs : list N) : result str :=
  match bs with
  | [] => Ok []
  | b0 :: r0 =>
      if (b0 <? 128)%N then (b0 ::.) <$> utf8_decode r0
      else
        match r0 with
        | [] => Raise UnicodeDecodeError
        | b1 :: r1 =>
            if ((194 <=? b0) && (b0 <=? 223))%N then
              if cont b1
              then (((b0 - 192) * 64 + (b1 - 128))%N ::.) <$> utf8_decode r1
              else Raise UnicodeDecodeError
            else
              match r1 with
              | [] => Raise UnicodeDecodeError
              | b2 :: r2 =>
                  if ((224 <=? b0) && (b0 <=? 239))%N then
                    if cont b1 && cont b2
                       && negb ((b0 =? 224) && (b1 <? 160))%N
                       && negb ((b0 =? 237) && (160 <=? b1))%N
                    then (((b0 - 224) * 4096 + (b1 - 128) * 64 + (b2 - 128))%N ::.)
                           <$> utf8_decode r2
                    else Raise UnicodeDecodeError
                  else
                    match r2 with
                    | [] => Raise UnicodeDecodeError
                    | b3 :: r3 =>
                        if ((240 <=? b0) && (b0 <=? 244))%N
                           && cont b1 && cont b2 && cont b3
                           && negb ((b0 =? 240) && (b1 <? 144))%N
                           && negb ((b0 =? 244) && (144 <=? b1))%N
                        then (((b0 - 240) * 262144 + (b1 - 128) * 4096
                               + (b2 - 128) * 64 + (b3 - 128))%N ::.)
                               <$> utf8_decode r3
                        else Raise UnicodeDecodeError
                    end
              end
        end
  end.

(** [os.path.join(a, b)] on a POSIX system. *)
Definition path_join (a b : str) : str :=
  if Py.startswith (lit "/") b then b
  else match last a with
       | None => b
       | Some c => if (c =? 47)%N then a ++ b else a ++ lit "/" ++ b
       end.

(** An open [ZipFile]: member names to their (decompressed) contents. *)
Definition archive := list (str * list N).

(** The file system and the [zipfile] module, as far as the program uses
    them.  An operation that raises may still have changed the world. *)
Class Platform (world : Type) := {
  (** [zipfile.ZipFile(path, 'r')] *)
  zip_open : str → world → result archive;
  (** [zip_ref.extractall(dir)] *)
  zip_extractall : archive → str → world → result () * world;
  (** [os.path.exists(path)] *)
  path_exists : str → world → bool;
  (** [os.path.isdir(path)] *)
  path_isdir : str → world → bool;
  (** [os.makedirs(path, exist_ok=True)] *)
  makedirs_exist_ok : str → world → result () * world;
  (** [with open(path, 'wb') as f: f.write(data)] *)
  write_binary : str → list N → world → result () * world;
  (** A directory that has been made is one. *)
  makedirs_isdir p w w' :
    makedirs_exist_ok p w = (Ok (), w') → path_isdir p w' = true;
  (** Writing a file, or failing to, removes no directory. *)
  write_keeps_dirs p data w q :
    path_isdir q w = true → path_isdir q (write_binary p data w).2 = true
}.

Definition no_database : exn :=
  FileNotFoundError (lit "No Anki database found in the .colpkg file").

Definition no_media_mapping : str := lit "No media mapping found in archive.".

Section archive_reader.
Context {world : Type} `{!Platform world}.
Variable json_loads : str → result json.

(** The search loop of [extract_colpkg]. *)
Fixpoint find_database (extract_dir : str) (names : list str) (w : world) : result str :=
  match names with
  | [] => Raise no_database
  | db_name :: rest =>
      let db_path := path_join extract_dir db_name in
      if path_exists db_path w then Ok db_path
      else find_database extract_dir rest w
  end.

Definition extract_colpkg (colpkg_path extract_dir : str) (w : world)
  : result str * world :=
  match zip_open colpkg_path w with
  | Raise e => (Raise e, w)
  | Ok zip_ref =>
      match zip_extractall zip_ref extract_dir w with
      | (Raise e, w1) => (Raise e, w1)
      | (Ok _, w1) =>
          (find_database extract_dir
             [lit "collection.anki21"; lit "collection.anki2"] w1, w1)
      end
  end.

(** [zip_ref.read(name)] *)
Definition zip_read (zip_ref : archive) (name : str) : result (list N) :=
  match Dict.get name zip_ref with
  | Some data => Ok data
  | None => Raise KeyError
  end.

(** The body of the first [try]. *)
Definition read_media_map (zip_ref : archive) : result json :=
  data ← zip_read zip_ref (lit "media");
  media_json ← utf8_decode data;
  json_loads media_json.

(** The loop over the media map; an iteration that raises [KeyError]
    is passed over, any other exception leaves the function. *)
Fixpoint copy_media (zip_ref : archive) (media_dir : str) (its : list (str * json))
    (media_count : nat) (w : world) : result nat * world :=
  match its with
  | [] => (Ok media_count, w)
  | (num_name, original_name) :: rest =>
      match zip_read zip_ref num_name with
      | Ok data =>
          match original_name with
          | JStr name =>
              match write_binary (path_join media_dir name) data w with
              | (Ok _, w') => copy_media zip_ref media_dir rest (S media_count) w'
              | (Raise KeyError, w') => copy_media zip_ref media_dir rest media_count w'
              | (Raise e, w') => (Raise e, w')
              end
          | _ => (Raise TypeError, w)
          end
      | Raise KeyError => copy_media zip_ref media_dir rest media_count w
      | Raise e => (Raise e, w)
      end
  end.

(** The outcome of [extract_media]: the result, the world it leaves and
    the lines it printed. *)
Definition extract_media (colpkg_path output_dir : str) (w : world)
  : result nat * world * list str :=
  let media_dir := path_join output_dir (lit "media") in
  match makedirs_exist_ok media_dir w with
  | (Raise e, w1) => (Raise e, w1, [])
  | (Ok _, w1) =>
      match zip_open colpkg_path w1 with
      | Raise e => (Raise e, w1, [])
      | Ok zip_ref =>
          match read_media_map zip_ref with
          | Raise KeyError | Raise JSONDecodeError => (Ok 0, w1, [no_media_mapping])
          | Raise e => (Raise e, w1, [])
          | Ok media_map =>
              match media_map with
              | JObj pairs =>
                  (copy_media zip_ref media_dir (Dict.of_pairs pairs) 0 w1, [])
              | _ => (Raise AttributeError, w1, [])
              end
          end
      end
  end.
End archive_reader.

(** ** A small concrete platform

    One implementation of the interfaces above, on which the statements
    below are run: parsed archives, regular files and directories, each
    under its path. *)

Module Sim.
Record world := {
  archives : list (str * archive);
  files : list (str * list N);
  dirs : list str
}.

Definition isfile (p : str) (w : world) : bool :=
  bool_decide (p ∈ Dict.keys (files w)) || bool_decide (p ∈ Dict.keys (archives w)).

Definition isdir (p : str) (w : world) : bool := bool_decide (p ∈ dirs w).

Definition exists_ (p : str) (w : world) : bool := isfile p w || isdir p w.

Definition add_dir (p : str) (w : world) : list str :=
  if isdir p w then dirs w else dirs w ++ [p].

Definition open_zip (p : str) (w : world) : result archive :=
  match Dict.get p (archives w) with
  | Some a => Ok a
  | None => if isfile p w then Raise BadZipFile else Raise (FileNotFoundError p)
  end.

Definition extractall (a : archive) (dir : str) (w : world) : result () * world :=
  (Ok (),
   {| archives := archives w;
      files := foldl (λ fs m, Dict.set (path_join dir m.1) m.2 fs) (files w) a;
      dirs := add_dir dir w |}).

Definition makedirs (p : str) (w : world) : result () * world :=
  if isfile p w then (Raise FileExistsError, w)
  else (Ok (), {| archives := archives w; files := files w; dirs := add_dir p w |}).

Definition write (p : str) (data : list N) (w : world) : result () * world :=
  if isdir p w then (Raise OSError, w)
  else (Ok (), {| archives := archives w; files := Dict.set p data (files w);
                  dirs := dirs w |}).

(** [str.lower] on ASCII and Latin-1 text. *)
Definition lower (s : str) : str :=
  (λ c, if ((65 <=? c) && (c <=? 90)
            || (192 <=? c) && (c <=? 222) && negb (c =? 215))%N
        then (c + 32)%N else c) <$> s.

(** [json.loads] on the documents of a table, [JSONDecodeError] on any
    other text. *)
Definition loads (table : list (str * json)) (text : str) : result json :=
  match Dict.get text table with
  | Some v => Ok v
  | None => Raise JSONDecodeError
  end.
End Sim.

(** The concrete platform meets the interface. *)
#[global] Instance sim_platform : Platform Sim.world.
Proof.
  refine {| zip_open := Sim.open_zip;
            zip_extractall := Sim.extractall;
            path_exists := Sim.exists_;
            path_isdir := Sim.isdir;
            makedirs_exist_ok := Sim.makedirs;
            write_binary := Sim.write |}.
  - intros p w w'. unfold Sim.makedirs. destruct (Sim.isfile p w); [done|].
    intros [= <-]. apply bool_decide_eq_true. simpl. unfold Sim.add_dir.
    destruct (Sim.isdir p w) eqn:E; [by apply bool_decide_eq_true in E|].
    apply elem_of_app. right. left.
  - intros p data w q. unfold Sim.write. by destruct (Sim.isdir p w).
Defined.

(** ** Sample inputs *)

(** A string literal of a JSON document. *)
Definition quoted (s : string) : str := Re.c_quote :: lit s ++ [Re.c_quote].

(** The text and the value of a deck table given as identifiers and
    names. *)
Definition decks_document (l : list (string * string)) : str :=
  lit "{"
  ++ Py.join (lit ", ")
       ((λ d, quoted d.1 ++ lit ": {" ++ quoted "name" ++ lit ": " ++ quoted d.2 ++ lit "}")
          <$> l)
  ++ lit "}".

Definition decks_value (l : list (string * string)) : json :=
  JObj ((λ d, (lit d.1, JObj [(lit "name", JStr (lit d.2))])) <$> l).

Definition decks_loads (l : list (string * string)) : str → result json :=
  Sim.loads [(decks_document l, decks_value l)].

Definition decks_db (l : list (string * string)) : database :=
  {| col := Some (Some (decks_document l), None); notes_table := []; cards_by_ord := [] |}.

(** One note with four fields and two cards, and a card of a note that
    is not in [notes]. *)
Definition cards_db : database :=
  {| col := Some (None, None);
     notes_table :=
       [{| note_id := 1; note_mid := 7;
           note_flds := Some (lit "Front text" ++ [31%N] ++ lit "Back 1" ++ [31%N; 31%N]
                              ++ lit "Back 2");
           note_tags := Some [] |}];
     cards_by_ord :=
       [{| card_id := 10; card_nid := 1; card_did := 5; card_ord := 0 |};
        {| card_id := 11; card_nid := 1; card_did := 6; card_ord := 1 |};
        {| card_id := 12; card_nid := 99; card_did := 5; card_ord := 1 |}] |}.

(** A world with one archive. *)
Definition archive_world (members : archive) : Sim.world :=
  {| Sim.archives := [(lit "deck.colpkg", members)]; Sim.files := []; Sim.dirs := [] |}.

(** A world in which a regular file sits where the media directory is
    to go. *)
Definition occupied_world : Sim.world :=
  {| Sim.archives := [(lit "deck.colpkg", [])];
     Sim.files := [(lit "out/media", [0%N])];
     Sim.dirs := [] |}.

(** ** The passes of the sanitizer, one by one *)

(** The four steps of [clean_html] before [strip]. *)
Definition drop_sounds (text : str) : str :=
  Py.sub (λ s, (λ '(_, n), ([], n)) <$> Re.m_sound s) text.

Definition break_lines (text : str) : str :=
  Py.sub (λ s, (λ n, ([Re.c_nl], n)) <$> Re.m_br s) text.

Definition drop_tags (text : str) : str :=
  Py.sub (λ s, (λ n, ([], n)) <$> Re.m_tag s) text.

Definition decode_entities (text : str) : str :=
  Py.replace (lit "&quot;") [Re.c_quote]
    (Py.replace (lit "&amp;") (lit "&")
       (Py.replace (lit "&gt;") (lit ">")
          (Py.replace (lit "&lt;") (lit "<")
             (Py.replace (lit "&nbsp;") (lit " ") text)))).

(** The two steps of [fix_media_paths]. *)
Definition src_attribute (x : str) : str :=
  lit "src=" ++ [Re.c_quote] ++ lit "media/" ++ x ++ [Re.c_quote].

Definition audio_element (x : str) : str :=
  lit "<audio controls src=" ++ [Re.c_quote] ++ lit "media/" ++ x
  ++ [Re.c_quote] ++ lit "></audio>".

Definition rewrite_src (html : str) : str :=
  Py.sub (λ s, (λ '(x, n), (src_attribute x, n)) <$> Re.m_src s) html.

Definition rewrite_sounds (html : str) : str :=
  Py.sub (λ s, (λ '(x, n), (audio_element x, n)) <$> Re.m_sound s) html.

(** Text that holds no tag opener, no ampersand and no opening bracket. *)
Definition plain (t : str) : Prop := (Re.c_lt ∉ t) ∧ (Re.c_amp ∉ t) ∧ (Re.c_lbrack ∉ t).

(** The entities [clean_html] decodes and what each stands for. *)
Definition entities : list (str * str) :=
  [(lit "&nbsp;", lit " "); (lit "&lt;", lit "<"); (lit "&gt;", lit ">");
   (lit "&amp;", lit "&"); (lit "&quot;", [Re.c_quote])].

(** The suffixes of a string, the longest first: what a scan from left
    to right has before it at each position. *)
Fixpoint tails (s : str) : list str :=
  s :: match s with
       | [] => []
       | _ :: t => tails t
       end.

(** Does [clean_html] rewrite something at the head of [s]: a sound
    reference, a line break or another tag, or one of the entities? *)
Definition markup_at (s : str) : bool :=
  bool_decide (is_Some (Re.m_sound s))
  || bool_decide (is_Some (Re.m_br s))
  || bool_decide (is_Some (Re.m_tag s))
  || existsb (λ e, Py.startswith e.1 s) entities.

(** No sound reference, no tag and no entity anywhere in [t]. *)
Definition no_markup (t : str) : bool :=
  forallb (λ suf, negb (markup_at suf)) (tails t).

(** ** The rows that give a card *)

(** The rows of [cards] whose note has no earlier row; [seen] holds the
    notes met so far. *)
Fixpoint first_rows (seen : list Z) (rows : list card_row) : list card_row :=
  match rows with
  | [] => []
  | r :: rest =>
      if decide (card_nid r ∈ seen) then first_rows seen rest
      else r :: first_rows (seen ++ [card_nid r]) rest
  end.

(** The entries of a media map whose numbered member is in the archive. *)
Definition in_archive (zip_ref : archive) (its : list (str * json)) : list (str * json) :=
  filter (λ e, e.1 ∈ Dict.keys zip_ref) its.

(** ** The order of the outer loop *)

(** [a] is not after [b] in the order of [sorted]. *)
Definition name_le (a b : deck) : Prop := str_le (d_name a) (d_name b) = true.

(** The node carries the identifier of a deck of [dks] named by its
    path, if there is such a deck. *)
Definition deck_id_kept (dks : list deck) (nd : node) : Prop :=
  (∃ dk, dk ∈ dks ∧ d_name dk = n_fullPath nd) →
  ∃ dk, dk ∈ dks ∧ d_name dk = n_fullPath nd ∧ n_id nd = d_id dk.

(** The path of the node is one the inner loop goes through for a deck
    of [dks]. *)
Definition deck_path (dks : list deck) (nd : node) : Prop :=
  ∃ dk, dk ∈ dks ∧ n_fullPath nd ∈ paths_from [] (Py.split (lit "::") (d_name dk)).

(** ** More sample inputs *)

(** A deck and a deck two levels below it. *)
Definition sample_decks : list (str * deck) :=
  [(lit "1", {| d_id := lit "1"; d_name := lit "Math" |});
   (lit "2", {| d_id := lit "2"; d_name := lit "Math::Algebra::Rings" |})].

(** A media map with two entries, and an archive that holds the map
    and the first of the two files. *)
Definition media_document : str :=
  lit "{" ++ quoted "0" ++ lit ": " ++ quoted "cat.jpg" ++ lit ", "
  ++ quoted "1" ++ lit ": " ++ quoted "missing.png" ++ lit "}".

Definition media_value : json :=
  JObj [(lit "0", JStr (lit "cat.jpg")); (lit "1", JStr (lit "missing.png"))].

Definition media_archive : archive :=
  [(lit "media", media_document); (lit "0", [255%N; 216%N; 255%N])].

(** ** Proof automation *)

(** Literals are unfolded to their code points. *)
Ltac lit_compute :=
  repeat match goal with
         | |- context [lit ?s] =>
             let v := eval vm_compute in (lit s) in change (lit s) with v
         | H : context [lit ?s] |- _ =>
             let v := eval vm_compute in (lit s) in change (lit s) with v in H
         end.

(** A character is none of the characters of a literal. *)
Ltac not_in_lit :=
  lit_compute; rewrite ?not_elem_of_cons; repeat split; try done; apply not_elem_of_nil.

(** Membership in a concatenation, case by case. *)
Ltac split_notin :=
  repeat match goal with
         | H : _ ∉ _ ++ _ |- _ => apply not_elem_of_app in H as [? ?]
         end.

Ltac elem_cases H :=
  repeat first
    [ apply elem_of_app in H as [H|H]
    | apply elem_of_cons in H as [H|H]
    | apply elem_of_nil in H ];
  try done.

Ltac not_in_app := split_notin; lit_compute; let H := fresh in intros H; elem_cases H.

(** Membership of a character in a given text, by evaluation. *)
Ltac by_evaluation := apply (bool_decide_unpack _); vm_compute; exact I.

Ltac plain_text := unfold plain; split_and!; by_evaluation.

(** The deck names of a given table, one by one. *)
Ltac each_deck :=
  let k := fresh in let dk := fresh in let H := fresh in
  intros k dk H;
  repeat (apply elem_of_cons in H as [H|H]; [by injection H as -> ->|]);
  by apply elem_of_nil in H.

(** * Properties *)

(** ** Sanitizer *)

Section sanitizer_facts.
Implicit Types (s t x : str) (c : char).

Lemma startswith_app p s : Py.startswith p s = true → s = p ++ drop (length p) s.
Proof.
  revert s. induction p as [|a p IH]; intros [|b s]; simpl; try done.
  intros [Hab Hp]%andb_true_iff. apply N.eqb_eq in Hab as ->.
  f_equal. by apply IH.
Qed.

Lemma startswith_head a p b s : Py.startswith (a :: p) (b :: s) = true → b = a.
Proof. simpl. intros [Hab _]%andb_true_iff. by apply N.eqb_eq in Hab. Qed.

(** A scan whose matcher fails at every position copies its input. *)
Lemma sub_no_match m s :
  (∀ pre suf, s = pre ++ suf → m suf = None) → Py.sub m s = s.
Proof.
  unfold Py.sub. induction s as [|c s IH]; intros Hm; [done|]. simpl.
  rewrite (Hm [] (c :: s) eq_refl). f_equal. apply IH.
  intros pre suf ->. by apply (Hm (c :: pre)).
Qed.

Lemma lstrip_head s :
  match Py.lstrip s with c :: _ => Py.isspace c = false | [] => True end.
Proof.
  induction s as [|c s IH]; [done|]. simpl.
  destruct (Py.isspace c) eqn:E; [done|]. by rewrite E.
Qed.

Lemma lstrip_fixed c s : Py.isspace c = false → Py.lstrip (c :: s) = c :: s.
Proof. simpl. by intros ->. Qed.

Lemma lstrip_idemp s : Py.lstrip (Py.lstrip s) = Py.lstrip s.
Proof.
  pose proof (lstrip_head s) as H. destruct (Py.lstrip s); [done|].
  by apply lstrip_fixed.
Qed.

Lemma lstrip_snoc s c : Py.isspace c = false → Py.lstrip (s ++ [c]) = Py.lstrip s ++ [c].
Proof.
  intros Hc. induction s as [|a s IH]; simpl; [by rewrite Hc|].
  by destruct (Py.isspace a).
Qed.

Lemma rstrip_idemp s : Py.rstrip (Py.rstrip s) = Py.rstrip s.
Proof. unfold Py.rstrip. by rewrite reverse_involutive, lstrip_idemp. Qed.

Lemma rstrip_cons c s :
  Py.isspace c = false → Py.rstrip (c :: s) = c :: Py.rstrip s.
Proof.
  intros Hc. unfold Py.rstrip.
  by rewrite reverse_cons, lstrip_snoc, reverse_snoc.
Qed.

Lemma strip_idemp s : Py.strip (Py.strip s) = Py.strip s.
Proof.
  unfold Py.strip. pose proof (lstrip_head s) as H.
  destruct (Py.lstrip s) as [|c r]; [done|].
  rewrite (rstrip_cons c r H), (lstrip_fixed _ _ H).
  rewrite <-(rstrip_cons c r H). apply rstrip_idemp.
Qed.

Lemma clean_html_stripped s : Py.strip (clean_html s) = clean_html s.
Proof. destruct s; [done|]. apply strip_idemp. Qed.

Lemma m_sound_Some s r : Re.m_sound s = Some r → ∃ t, s = lit "[sound:" ++ t.
Proof.
  unfold Re.m_sound. destruct (Py.startswith _ s) eqn:E; [|done].
  intros _. apply startswith_app in E. eauto.
Qed.

Lemma m_br_Some s n : Re.m_br s = Some n → ∃ t, s = Re.c_lt :: t.
Proof.
  destruct s as [|a [|b [|c s]]]; simpl; try done.
  destruct (a =? Re.c_lt)%N eqn:E; [|done].
  apply N.eqb_eq in E as ->. eauto.
Qed.

Lemma m_tag_Some s n : Re.m_tag s = Some n → ∃ t, s = Re.c_lt :: t.
Proof.
  destruct s as [|a s]; simpl; [done|].
  destruct (a =? Re.c_lt)%N eqn:E; [|done].
  apply N.eqb_eq in E as ->. eauto.
Qed.

Lemma replace_no_head a old new s :
  a ∉ s → Py.replace (a :: old) new s = s.
Proof.
  intros Ha. apply sub_no_match. intros pre suf ->.
  destruct (Py.startswith _ suf) eqn:E; [|done].
  destruct suf as [|b suf]; [done|].
  apply startswith_head in E as ->.
  destruct Ha. apply elem_of_app. right. left.
Qed.

(** Text that holds no tag opener, no ampersand and no sound reference
    passes through the sanitizer untouched, once stripped. *)
Lemma clean_html_plain t :
  Re.c_lt ∉ t → Re.c_amp ∉ t →
  (∀ pre post, t ≠ pre ++ lit "[sound:" ++ post) →
  clean_html t = Py.strip t.
Proof.
  intros Hlt Hamp Hsound. destruct t as [|c t]; [done|].
  unfold clean_html. set (u := c :: t) in *.
  rewrite (sub_no_match _ u); last first.
  { intros pre suf ->. destruct (Re.m_sound suf) as [r|] eqn:E; [|done].
    apply m_sound_Some in E as [x ->]. by destruct (Hsound pre x). }
  rewrite (sub_no_match _ u); last first.
  { intros pre suf ->. destruct (Re.m_br suf) as [r|] eqn:E; [|done].
    apply m_br_Some in E as [x ->].
    destruct Hlt. apply elem_of_app. right. left. }
  rewrite (sub_no_match _ u); last first.
  { intros pre suf ->. destruct (Re.m_tag suf) as [r|] eqn:E; [|done].
    apply m_tag_Some in E as [x ->].
    destruct Hlt. apply elem_of_app. right. left. }
  change (lit "&nbsp;") with (Re.c_amp :: lit "nbsp;").
  change (lit "&lt;") with (Re.c_amp :: lit "lt;").
  change (lit "&gt;") with (Re.c_amp :: lit "gt;").
  change (lit "&amp;") with (Re.c_amp :: lit "amp;").
  change (lit "&quot;") with (Re.c_amp :: lit "quot;").
  by rewrite !(replace_no_head Re.c_amp _ _ u Hamp).
Qed.
End sanitizer_facts.

(** The two examples of the specification's safe-order paragraph that the
    program meets. *)
Example clean_html_amp_lt : clean_html (lit "a &amp;lt; b") = lit "a &lt; b".
Proof. reflexivity. Qed.

Example clean_html_amp_amp : clean_html (lit "&amp;amp;") = lit "&amp;".
Proof. reflexivity. Qed.

(** C2 (the program departs from the claim): [&quot;] is decoded after
    [&amp;], so the ampersand that [&amp;] leaves is combined with the
    text that follows it and [&amp;quot;] comes out as a double quote
    instead of [&quot;]. *)
Theorem C2_amp_quot_decoded_twice :
  clean_html (lit "&amp;quot;") = [Re.c_quote]
  ∧ clean_html (lit "&amp;quot;") ≠ lit "&quot;".
Proof. split; [reflexivity | discriminate]. Qed.

(** C3 as stated fails: sanitizing [&amp;lt;] gives [&lt;], and sanitizing
    that gives [<]. *)
Lemma C3_not_idempotent :
  ¬ (∀ s, clean_html (clean_html s) = clean_html s).
Proof. intros H. specialize (H (lit "&amp;lt;")). discriminate H. Qed.

Lemma tails_suffix (pre x : str) : x ∈ tails (pre ++ x).
Proof.
  induction pre as [|c pre IH]; simpl; [destruct x; left|by right].
Qed.

(** In a text without markup no pattern of the sanitizer matches at any
    position. *)
Lemma no_markup_at (t pre suf : str) :
  no_markup t = true → t = pre ++ suf →
  Re.m_sound suf = None ∧ Re.m_br suf = None ∧ Re.m_tag suf = None
  ∧ ∀ old new, (old, new) ∈ entities → Py.startswith old suf = false.
Proof.
  intros H ->. unfold no_markup in H. rewrite forallb_forall in H.
  specialize (H suf (proj1 (list_elem_of_In _ _) (tails_suffix pre suf))).
  apply negb_true_iff in H. unfold markup_at in H.
  apply orb_false_iff in H as [H Hent]. apply orb_false_iff in H as [H Htag].
  apply orb_false_iff in H as [Hsound Hbr].
  apply bool_decide_eq_false, eq_None_not_Some in Hsound.
  apply bool_decide_eq_false, eq_None_not_Some in Hbr.
  apply bool_decide_eq_false, eq_None_not_Some in Htag.
  split_and!; try done.
  intros old new Hin. destruct (Py.startswith old suf) eqn:E; [|done].
  rewrite <-Hent. symmetry. apply existsb_exists. exists (old, new).
  split; [by apply list_elem_of_In|done].
Qed.

Lemma replace_no_entity (old new t : str) :
  (old, new) ∈ entities → no_markup t = true → Py.replace old new t = t.
Proof.
  intros Hin Ht. apply sub_no_match. intros pre suf E.
  destruct (no_markup_at t pre suf Ht E) as (_ & _ & _ & Hent).
  by rewrite (Hent old new Hin).
Qed.

(** C3, amended: the sanitizer is idempotent on every input whose
    sanitized text holds no markup: no sound reference, no tag and none
    of the five entities. *)
Theorem C3_idempotent_without_markup (s : str) :
  no_markup (clean_html s) = true →
  clean_html (clean_html s) = clean_html s.
Proof.
  intros H. pose proof (clean_html_stripped s) as Hstrip.
  destruct (clean_html s) as [|c t]; [done|].
  unfold clean_html. set (u := c :: t) in *.
  rewrite (sub_no_match _ u); last first.
  { intros pre suf E. by destruct (no_markup_at u pre suf H E) as (-> & _). }
  rewrite (sub_no_match _ u); last first.
  { intros pre suf E. by destruct (no_markup_at u pre suf H E) as (_ & -> & _). }
  rewrite (sub_no_match _ u); last first.
  { intros pre suf E. by destruct (no_markup_at u pre suf H E) as (_ & _ & -> & _). }
  rewrite (replace_no_entity (lit "&nbsp;") (lit " ") u),
    (replace_no_entity (lit "&lt;") (lit "<") u),
    (replace_no_entity (lit "&gt;") (lit ">") u),
    (replace_no_entity (lit "&amp;") (lit "&") u),
    (replace_no_entity (lit "&quot;") [Re.c_quote] u);
    try done; unfold entities; repeat first [left | right].
Qed.

(** ** Archive reader *)

Section archive_reader_facts.
Context {world : Type} `{!Platform world}.
Variable json_loads : str → result json.

Lemma copy_media_keeps_dirs zip_ref media_dir its n w q :
  path_isdir q w = true →
  path_isdir q (copy_media zip_ref media_dir its n w).2 = true.
Proof.
  revert n w. induction its as [|[num_name original_name] its IH]; intros n w Hq; [done|].
  simpl. destruct (zip_read zip_ref num_name) as [data|e].
  - destruct original_name; try done.
    pose proof (write_keeps_dirs (path_join media_dir s) data w q Hq) as Hw.
    destruct (write_binary _ data w) as [[[]|e] w']; simpl in Hw; [by apply IH|].
    destruct e; try done. by apply IH.
  - destruct e; try done. by apply IH.
Qed.

(** When the archive has no [media] member the warning is printed and
    the count is zero. *)
Lemma extract_media_no_entry colpkg_path output_dir w w1 zip_ref :
  makedirs_exist_ok (path_join output_dir (lit "media")) w = (Ok (), w1) →
  zip_open colpkg_path w1 = Ok zip_ref →
  Dict.get (lit "media") zip_ref = None →
  extract_media json_loads colpkg_path output_dir w = (Ok 0, w1, [no_media_mapping]).
Proof.
  intros Hmk Hzip Hget. unfold extract_media, read_media_map, zip_read.
  by rewrite Hmk, Hzip, Hget.
Qed.

(** Likewise when its text is not JSON. *)
Lemma extract_media_not_json colpkg_path output_dir w w1 zip_ref data text :
  makedirs_exist_ok (path_join output_dir (lit "media")) w = (Ok (), w1) →
  zip_open colpkg_path w1 = Ok zip_ref →
  Dict.get (lit "media") zip_ref = Some data →
  utf8_decode data = Ok text →
  json_loads text = Raise JSONDecodeError →
  extract_media json_loads colpkg_path output_dir w = (Ok 0, w1, [no_media_mapping]).
Proof.
  intros Hmk Hzip Hget Hdec Hjson. unfold extract_media, read_media_map, zip_read.
  rewrite Hmk, Hzip, Hget. simpl. rewrite Hdec. simpl. by rewrite Hjson.
Qed.

(** A JSON document that is not an object passes the [try] and fails at
    [items()]. *)
Lemma extract_media_not_object colpkg_path output_dir w w1 zip_ref data text v :
  makedirs_exist_ok (path_join output_dir (lit "media")) w = (Ok (), w1) →
  zip_open colpkg_path w1 = Ok zip_ref →
  Dict.get (lit "media") zip_ref = Some data →
  utf8_decode data = Ok text →
  json_loads text = Ok v →
  (∀ pairs, v ≠ JObj pairs) →
  extract_media json_loads colpkg_path output_dir w = (Raise AttributeError, w1, []).
Proof.
  intros Hmk Hzip Hget Hdec Hjson Hv. unfold extract_media, read_media_map, zip_read.
  rewrite Hmk, Hzip, Hget. simpl. rewrite Hdec. simpl. rewrite Hjson.
  destruct v; try done. by destruct (Hv pairs).
Qed.

(** C5 (the program departs from the claim): a [media] member that is
    not UTF-8 text cannot be parsed as the mapping, yet the handler
    catches only [KeyError] and [JSONDecodeError]: [extract_media]
    raises [UnicodeDecodeError], prints no warning and returns no
    count. *)
Theorem C5_undecodable_media_raises colpkg_path output_dir w w1 zip_ref data :
  makedirs_exist_ok (path_join output_dir (lit "media")) w = (Ok (), w1) →
  zip_open colpkg_path w1 = Ok zip_ref →
  Dict.get (lit "media") zip_ref = Some data →
  utf8_decode data = Raise UnicodeDecodeError →
  extract_media json_loads colpkg_path output_dir w = (Raise UnicodeDecodeError, w1, []).
Proof.
  intros Hmk Hzip Hget Hdec. unfold extract_media, read_media_map, zip_read.
  rewrite Hmk, Hzip, Hget. simpl. by rewrite Hdec.
Qed.

(** C7: once the archive is extracted, [extract_colpkg] returns the
    path of [collection.anki21] if it exists, else the path of
    [collection.anki2] if that exists, and raises the no-database error
    exactly when neither exists. *)
Theorem C7_database_priority colpkg_path extract_dir w zip_ref w1 :
  zip_open colpkg_path w = Ok zip_ref →
  zip_extractall zip_ref extract_dir w = (Ok (), w1) →
  let p21 := path_join extract_dir (lit "collection.anki21") in
  let p2 := path_join extract_dir (lit "collection.anki2") in
  extract_colpkg colpkg_path extract_dir w =
    (if path_exists p21 w1 then Ok p21
     else if path_exists p2 w1 then Ok p2
     else Raise no_database, w1)
  ∧ ((extract_colpkg colpkg_path extract_dir w).1 = Raise no_database
     ↔ path_exists p21 w1 = false ∧ path_exists p2 w1 = false).
Proof.
  intros Hzip Hext p21 p2. unfold extract_colpkg. rewrite Hzip, Hext. simpl.
  fold p21 p2. destruct (path_exists p21 w1), (path_exists p2 w1); simpl;
    (split; [done|]); split; try done; by intros [??].
Qed.

(** C9, amended: [os.makedirs] is called before anything is read, and
    whenever it succeeds the [media] directory exists when
    [extract_media] is left, whatever the archive holds and whether the
    call returns a count or raises. *)
Theorem C9_media_dir_exists colpkg_path output_dir w w1 :
  makedirs_exist_ok (path_join output_dir (lit "media")) w = (Ok (), w1) →
  path_isdir (path_join output_dir (lit "media"))
             (extract_media json_loads colpkg_path output_dir w).1.2 = true.
Proof.
  intros Hmk. pose proof (makedirs_isdir _ _ _ Hmk) as Hdir.
  unfold extract_media. rewrite Hmk.
  destruct (zip_open colpkg_path w1) as [zip_ref|e]; [|done].
  destruct (read_media_map json_loads zip_ref) as [v|e].
  - destruct v; try done. simpl. by apply copy_media_keeps_dirs.
  - by destruct e.
Qed.
End archive_reader_facts.

(** ** Dictionaries *)

Section dict_facts.
Context {K V : Type} `{EqDecision K}.
Implicit Types (d : list (K * V)) (k : K) (v : V).

Lemma get_set k v d k' :
  Dict.get k' (Dict.set k v d) = if decide (k' = k) then Some v else Dict.get k' d.
Proof.
  induction d as [|[k0 v0] d IH]; simpl.
  - by destruct (decide (k' = k)).
  - destruct (decide (k = k0)) as [->|Hne]; simpl.
    + by destruct (decide (k' = k0)).
    + rewrite IH. destruct (decide (k' = k0)) as [->|?]; [|done].
      by rewrite decide_False.
Qed.

Lemma get_None k d : Dict.get k d = None ↔ k ∉ Dict.keys d.
Proof.
  unfold Dict.keys. induction d as [|[k0 v0] d IH]; simpl.
  - split; [intros _; apply not_elem_of_nil | done].
  - rewrite not_elem_of_cons. destruct (decide (k = k0)) as [?|?]; [|by rewrite IH; intuition].
    split; [done|]. by intros [? _].
Qed.

Lemma get_Some k v d : Dict.get k d = Some v → (k, v) ∈ d.
Proof.
  induction d as [|[k0 v0] d IH]; simpl; [done|].
  destruct (decide (k = k0)) as [->|?].
  - intros [= ->]. left.
  - intros ?. right. by apply IH.
Qed.

Lemma keys_set_present k v d : k ∈ Dict.keys d → Dict.keys (Dict.set k v d) = Dict.keys d.
Proof.
  unfold Dict.keys. induction d as [|[k0 v0] d IH]; simpl.
  - by intros ?%elem_of_nil.
  - destruct (decide (k = k0)) as [->|?]; [done|].
    intros [?|?]%elem_of_cons; [done|]. simpl. f_equal. by apply IH.
Qed.

Lemma set_absent k v d : k ∉ Dict.keys d → Dict.set k v d = d ++ [(k, v)].
Proof.
  unfold Dict.keys. induction d as [|[k0 v0] d IH]; simpl; [done|].
  rewrite not_elem_of_cons. intros [? ?]. rewrite decide_False by done.
  f_equal. by apply IH.
Qed.

Lemma keys_set_NoDup k v d : NoDup (Dict.keys d) → NoDup (Dict.keys (Dict.set k v d)).
Proof.
  intros Hd. destruct (decide (k ∈ Dict.keys d)) as [Hin|Hout].
  - by rewrite keys_set_present.
  - rewrite set_absent by done. unfold Dict.keys in *. rewrite fmap_app. simpl.
    apply NoDup_app. split_and!; [done| |apply NoDup_singleton].
    intros x Hx ->%list_elem_of_singleton. done.
Qed.

Lemma of_pairs_NoDup (l : list (K * V)) : NoDup (Dict.keys (Dict.of_pairs l)).
Proof.
  unfold Dict.of_pairs. generalize (NoDup_nil_2 (A:=K)).
  change (@nil K) with (Dict.keys (@nil (K * V))). generalize (@nil (K * V)).
  induction l as [|[k v] l IH]; intros d Hd; simpl; [done|].
  by apply IH, keys_set_NoDup.
Qed.

Lemma filter_key_absent k d : k ∉ Dict.keys d → filter (λ e, e.1 = k) d = [].
Proof.
  unfold Dict.keys. induction d as [|[k0 v0] d IH]; simpl; [done|].
  rewrite not_elem_of_cons. intros [? ?].
  rewrite filter_cons_False by (simpl; congruence). by apply IH.
Qed.

(** With unique keys, the entries under a key are the one [get] finds. *)
Lemma filter_key k v d :
  NoDup (Dict.keys d) → Dict.get k d = Some v → filter (λ e, e.1 = k) d = [(k, v)].
Proof.
  unfold Dict.keys. induction d as [|[k0 v0] d IH]; simpl; [done|].
  intros [Hk0 Hd]%NoDup_cons. destruct (decide (k = k0)) as [->|Hne].
  - intros [= ->]. rewrite filter_cons_True by done. f_equal.
    by apply filter_key_absent.
  - intros Hget. rewrite filter_cons_False by (simpl; congruence). by apply IH.
Qed.
End dict_facts.

(** ** Collection parser *)

Section card_facts.
Variable notes : list (Z * note).
Implicit Types (rows : list card_row) (d : list (Z * Card)) (n : Z).

(** The card kept for a note is the one built from its first row. *)
Lemma collect_cards_get rows d n :
  Dict.get n (foldl (collect_card notes) d rows) =
  match Dict.get n d with
  | Some c => Some c
  | None => make_card notes <$> head (filter (λ r, card_nid r = n) rows)
  end.
Proof.
  revert d. induction rows as [|r rows IH]; intros d; simpl.
  - by destruct (Dict.get n d).
  - rewrite IH. unfold collect_card at 1.
    destruct (Dict.get (card_nid r) d) as [c0|] eqn:Hr.
    + destruct (Dict.get n d) eqn:Hn; [done|].
      rewrite filter_cons_False; [done|]. intros E. congruence.
    + rewrite get_set. destruct (decide (n = card_nid r)) as [->|Hne].
      * rewrite Hr. by rewrite filter_cons_True.
      * destruct (Dict.get n d); [done|]. by rewrite filter_cons_False.
Qed.

Lemma collect_cards_NoDup rows d :
  NoDup (Dict.keys d) → NoDup (Dict.keys (foldl (collect_card notes) d rows)).
Proof.
  revert d. induction rows as [|r rows IH]; intros d Hd; simpl; [done|].
  apply IH. unfold collect_card. destruct (Dict.get _ d); [done|].
  by apply keys_set_NoDup.
Qed.

(** In rows sorted by [ord], the first row of a note has its least [ord]. *)
Lemma first_row_minimal rows n r :
  ordered_by_ord rows →
  head (filter (λ r, card_nid r = n) rows) = Some r →
  r ∈ rows ∧ card_nid r = n
  ∧ ∀ r', r' ∈ rows → card_nid r' = n → (card_ord r ≤ card_ord r')%Z.
Proof.
  unfold ordered_by_ord. intros Hs%Sorted_StronglySorted; last first.
  { intros a b c. apply Z.le_trans. }
  induction Hs as [|r0 rows Hs IH Hall]; simpl; [done|].
  destruct (decide (card_nid r0 = n)) as [E|E].
  - rewrite filter_cons_True by done. intros [= <-].
    split_and!; [left|done|]. intros r' [->|Hin]%elem_of_cons _; [done|].
    rewrite Forall_forall in Hall. by apply Hall.
  - rewrite filter_cons_False by done. intros Hh.
    destruct (IH Hh) as (Hin & Hn & Hmin). split_and!; [by right|done|].
    intros r' [->|Hin']%elem_of_cons Hn'; [done|]. by apply Hmin.
Qed.

Lemma first_row_exists rows n r :
  r ∈ rows → card_nid r = n →
  ∃ r0, head (filter (λ r, card_nid r = n) rows) = Some r0.
Proof.
  intros Hin Hn.
  assert (r ∈ filter (λ r, card_nid r = n) rows) as Hf by by apply list_elem_of_filter.
  destruct (filter _ rows) as [|r0 l]; [by apply elem_of_nil in Hf|]. by exists r0.
Qed.
End card_facts.

Lemma read_notes_missing rows n :
  (∀ nr, nr ∈ rows → note_id nr ≠ n) → Dict.get n (read_notes rows) = None.
Proof.
  unfold read_notes. generalize (eq_refl : Dict.get n (@nil (Z * note)) = None).
  generalize (@nil (Z * note)).
  induction rows as [|nr rows IH]; intros d Hd Hrows; simpl; [done|].
  apply IH.
  - rewrite get_set, decide_False; [done|].
    intros ->. by apply (Hrows nr); [left|].
  - intros nr' Hin. apply Hrows. by right.
Qed.

Section parser_facts.
Variable lower : str → str.
Variable json_loads : str → result json.

Lemma parse_inv db out :
  parse_anki_collection lower json_loads db = Ok out →
  ∃ dks, parse_decks lower json_loads db = Ok dks
    ∧ decks out = build_deck_tree dks
    ∧ cards out =
        Dict.values (collect_cards (read_notes (notes_table db)) (cards_by_ord db)).
Proof.
  unfold parse_anki_collection.
  destruct (parse_decks lower json_loads db) as [dks|e]; simpl; [|done].
  intros [= <-]. by exists dks.
Qed.

(** C1: in the list [parse_anki_collection] returns, every note that
    has a row in [cards] has exactly one card, and it is built from a
    row of least [ord] among the note's rows. *)
Theorem C1_one_card_per_note db out :
  ordered_by_ord (cards_by_ord db) →
  parse_anki_collection lower json_loads db = Ok out →
  let notes := read_notes (notes_table db) in
  let cards_by_note := collect_cards notes (cards_by_ord db) in
  cards out = Dict.values cards_by_note
  ∧ ∀ n, (∃ r, r ∈ cards_by_ord db ∧ card_nid r = n) →
      ∃ r, r ∈ cards_by_ord db ∧ card_nid r = n
        ∧ (∀ r', r' ∈ cards_by_ord db → card_nid r' = n →
             (card_ord r ≤ card_ord r')%Z)
        ∧ filter (λ e, e.1 = n) cards_by_note = [(n, make_card notes r)].
Proof.
  intros Hsorted (dks & _ & _ & Hcards)%parse_inv notes cards_by_note.
  split; [done|]. intros n (r & Hin & Hn).
  destruct (first_row_exists _ _ _ Hin Hn) as [r0 Hr0].
  destruct (first_row_minimal _ _ _ Hsorted Hr0) as (Hin0 & Hn0 & Hmin).
  exists r0. split_and!; try done.
  apply filter_key.
  - apply collect_cards_NoDup, NoDup_nil_2.
  - unfold cards_by_note, collect_cards. rewrite collect_cards_get. simpl.
    by rewrite Hr0.
Qed.

(** C8: a card whose note has no row in [notes] still gets its entry
    in the dedup map, with empty [front], [frontClean], [back] and
    [backClean], and the entry is in the list the parser returns; the
    missing note raises nothing. *)
Theorem C8_missing_note_empty_card db r :
  r ∈ cards_by_ord db →
  (∀ nr, nr ∈ notes_table db → note_id nr ≠ card_nid r) →
  ∃ c,
    Dict.get (card_nid r)
      (collect_cards (read_notes (notes_table db)) (cards_by_ord db)) = Some c
    ∧ front c = [] ∧ frontClean c = [] ∧ back c = [] ∧ backClean c = []
    ∧ ∀ dks, parse_decks lower json_loads db = Ok dks →
        ∃ out, parse_anki_collection lower json_loads db = Ok out ∧ c ∈ cards out.
Proof.
  intros Hin Hmissing.
  destruct (first_row_exists _ (card_nid r) _ Hin eq_refl) as [r0 Hr0].
  assert (card_nid r0 = card_nid r) as Hn0.
  { apply head_Some_elem_of in Hr0. by apply list_elem_of_filter in Hr0 as [? _]. }
  pose proof (read_notes_missing _ _ Hmissing) as Hnote.
  exists (make_card (read_notes (notes_table db)) r0).
  assert (Dict.get (card_nid r)
            (collect_cards (read_notes (notes_table db)) (cards_by_ord db))
          = Some (make_card (read_notes (notes_table db)) r0)) as Hget.
  { unfold collect_cards. rewrite collect_cards_get. simpl. by rewrite Hr0. }
  split; [done|].
  split_and!; try (unfold make_card; rewrite Hn0, Hnote; reflexivity).
  intros dks Hdks. unfold parse_anki_collection. rewrite Hdks. simpl.
  eexists. split; [done|]. simpl.
  apply get_Some in Hget. unfold Dict.values.
  apply (list_elem_of_fmap_2 snd) in Hget. exact Hget.
Qed.
End parser_facts.

(** ** Deck tree builder: the state between iterations *)

Section attach_facts.
Implicit Types (st : tree_state) (nd : node) (h p c : nat).

Lemma same_label_refl nd : same_label nd nd.
Proof. done. Qed.

Lemma same_label_trans (n1 n2 n3 : node) :
  same_label n1 n2 → same_label n2 n3 → same_label n1 n3.
Proof. intros (?&?&?) (?&?&?). split_and!; congruence. Qed.

Lemma grows_refl st : grows st st.
Proof. intros h nd ?. by exists nd. Qed.

Lemma grows_trans st1 st2 st3 : grows st1 st2 → grows st2 st3 → grows st1 st3.
Proof.
  intros H12 H23 h nd Hh. destruct (H12 h nd Hh) as (nd2 & Hh2 & E2).
  destruct (H23 h nd2 Hh2) as (nd3 & Hh3 & E3). exists nd3.
  split; [done|]. by eapply same_label_trans.
Qed.

Lemma attach_length st parent nd : length (heap (attach st parent nd)) = S (length (heap st)).
Proof.
  unfold attach. destruct parent; simpl; rewrite ?length_alter, length_app; simpl; lia.
Qed.

(** A node of the new heap is the new node, or an old one that may have
    gained the new node as its last child. *)
Lemma attach_lookup st parent nd h nd' :
  heap (attach st parent nd) !! h = Some nd' →
  (h = length (heap st) ∧ parent ≠ Some h ∧ nd' = nd)
  ∨ (h = length (heap st) ∧ parent = Some h ∧ nd' = append_child h nd)
  ∨ ∃ nd0, heap st !! h = Some nd0 ∧ same_label nd' nd0
      ∧ (n_children nd' = n_children nd0
         ∨ parent = Some h ∧ n_children nd' = n_children nd0 ++ [length (heap st)]).
Proof.
  unfold attach. destruct parent as [p|]; simpl.
  - destruct (decide (p = h)) as [->|Hne].
    + rewrite list_lookup_alter_eq. intros Hl.
      apply fmap_Some in Hl as (nd0 & Hl & ->).
      apply lookup_app_Some in Hl as [Hl|[Hge Hl]].
      * right. right. exists nd0. split_and!; try done. by right.
      * right. left. apply list_lookup_singleton_Some in Hl as [Hz ->].
        assert (h = length (heap st)) as Hh by lia.
        split_and!; [done|by f_equal|by rewrite Hh at 1].
    + rewrite list_lookup_alter_ne by done. intros Hl.
      apply lookup_app_Some in Hl as [Hl|[Hge Hl]].
      * right. right. exists nd'. split_and!; try done. by left.
      * left. apply list_lookup_singleton_Some in Hl as [Hz ->].
        split_and!; [lia| |done]. intros [= ->]. done.
  - intros Hl. apply lookup_app_Some in Hl as [Hl|[Hge Hl]].
    + right. right. exists nd'. split_and!; try done. by left.
    + left. apply list_lookup_singleton_Some in Hl as [Hz ->]. split_and!; [lia|done|done].
Qed.

Lemma attach_grows st parent nd : grows st (attach st parent nd).
Proof.
  intros h nd0 Hh. pose proof (lookup_lt_Some _ _ _ Hh) as Hlt.
  unfold attach. destruct parent as [p|]; simpl.
  - destruct (decide (p = h)) as [->|Hne].
    + rewrite list_lookup_alter_eq, lookup_app_l, Hh by done. simpl.
      by eexists.
    + rewrite list_lookup_alter_ne, lookup_app_l, Hh by done. by eexists.
  - rewrite lookup_app_l, Hh by done. by eexists.
Qed.

Lemma attach_new st parent nd :
  (∀ p, parent = Some p → p < length (heap st)) →
  heap (attach st parent nd) !! length (heap st) = Some nd.
Proof.
  intros Hp. unfold attach. destruct parent as [p|]; simpl.
  - specialize (Hp p eq_refl). rewrite list_lookup_alter_ne by lia.
    by rewrite list_lookup_middle.
  - by rewrite list_lookup_middle.
Qed.

Lemma children_alter (l : list node) p h :
  p < length l →
  mjoin (n_children <$> alter (append_child h) p l) ≡ₚ h :: mjoin (n_children <$> l).
Proof.
  revert p. induction l as [|a l IH]; intros [|p] Hp; simpl in Hp; try lia.
  - csimpl. rewrite <-(assoc_L (++)). simpl. by rewrite <-Permutation_middle.
  - csimpl. change (list_alter (append_child h) p l) with (alter (append_child h) p l).
    rewrite IH by lia. by rewrite <-Permutation_middle.
Qed.

Lemma attach_slots st parent nd :
  (∀ p, parent = Some p → p < length (heap st)) →
  n_children nd = [] →
  root_exists (heap st ++ [nd]) (root_nodes st) (n_fullPath nd) = false →
  slots (attach st parent nd) ≡ₚ length (heap st) :: slots st.
Proof.
  intros Hp Hnd Hroot. unfold slots, attach. destruct parent as [p|]; simpl.
  - rewrite children_alter by (rewrite length_app; specialize (Hp p eq_refl); lia).
    rewrite fmap_app, join_app. simpl. rewrite Hnd. simpl.
    rewrite !app_nil_r. by rewrite <-Permutation_middle.
  - rewrite Hroot, fmap_app, join_app. simpl. rewrite Hnd. simpl.
    rewrite !app_nil_r, <-(assoc_L (++)). simpl. by rewrite <-Permutation_middle.
Qed.
End attach_facts.

Section tree_inv_facts.
Variable dks : list deck.
Implicit Types (st : tree_state) (nd : node) (h p c : nat) (dk : deck).

Lemma tree_inv_empty : tree_inv dks {| heap := []; deck_map := []; root_nodes := [] |}.
Proof.
  split; simpl; try done.
  - intros p h. split; [done|]. by intros (nd & ? & _).
  - constructor.
  - intros h. split; [by intros ?%elem_of_nil | lia].
Qed.

Lemma child_in_range st h nd c :
  tree_inv dks st → heap st !! h = Some nd → c ∈ n_children nd → c < length (heap st).
Proof.
  intros Hinv Hh Hc. apply (inv_slots _ _ Hinv). unfold slots.
  apply elem_of_app. right. apply list_elem_of_join. exists (n_children nd).
  split; [done|]. apply list_elem_of_fmap. exists nd. split; [done|].
  by eapply list_elem_of_lookup_2.
Qed.

Lemma root_in_range st r : tree_inv dks st → r ∈ root_nodes st → r < length (heap st).
Proof. intros Hinv Hr. apply (inv_slots _ _ Hinv), elem_of_app. by left. Qed.

Lemma linked_in_range st cp parent p :
  linked st cp parent → parent = Some p → p < length (heap st).
Proof. intros Hl ->. destruct Hl as (nd & Hp & _). by eapply lookup_lt_Some. Qed.

(** A path that is not in [deck_map] is the path of no root. *)
Lemma root_exists_fresh st nd :
  tree_inv dks st → Dict.get (n_fullPath nd) (deck_map st) = None →
  root_exists (heap st ++ [nd]) (root_nodes st) (n_fullPath nd) = false.
Proof.
  intros Hinv Hget. apply not_true_iff_false. intros Hex.
  apply existsb_exists in Hex as (r & Hr%list_elem_of_In & Hex).
  pose proof (root_in_range _ _ Hinv Hr) as Hlt.
  rewrite lookup_app_l in Hex by done.
  destruct (heap st !! r) as [root|] eqn:Hroot; [|done].
  apply bool_decide_eq_true in Hex.
  assert (Dict.get (n_fullPath nd) (deck_map st) = Some r) as Hmap.
  { apply (inv_map _ _ Hinv). by exists root. }
  congruence.
Qed.

Lemma attach_inv st cp parent dk part :
  tree_inv dks st → dk ∈ dks → linked st cp parent →
  Dict.get (child_path cp part) (deck_map st) = None →
  tree_inv dks (attach st parent (new_node dk (child_path cp part) part)).
Proof.
  intros Hinv Hdk Hlink Hfresh.
  set (nd := new_node dk (child_path cp part) part).
  set (n := length (heap st)).
  assert (∀ p, parent = Some p → p < n) as Hrange by eauto using linked_in_range.
  assert (slots (attach st parent nd) ≡ₚ n :: slots st) as Hslots.
  { apply attach_slots; [done|done|]. by apply root_exists_fresh. }
  assert (n ∉ slots st) as Hn.
  { intros Hin%(inv_slots _ _ Hinv). unfold n in Hin. lia. }
  assert (∀ h nd', heap (attach st parent nd) !! h = Some nd' →
            (h = n ∧ nd' = nd)
            ∨ ∃ nd0, heap st !! h = Some nd0 ∧ same_label nd' nd0
                ∧ (n_children nd' = n_children nd0
                   ∨ parent = Some h ∧ n_children nd' = n_children nd0 ++ [n])) as Hlook.
  { intros h nd' Hl. apply attach_lookup in Hl as [(?&?&?)|[(-> & Hp & _)|?]]; [by left| |by right].
    apply Hrange in Hp. unfold n in Hp. lia. }
  split.
  - (* deck_map *)
    intros p h. simpl.
    assert (deck_map (attach st parent nd) = Dict.set (child_path cp part) n (deck_map st)) as ->.
    { unfold attach. by destruct parent. }
    rewrite get_set. destruct (decide (p = child_path cp part)) as [->|Hne].
    + split.
      * intros [= <-]. exists nd. split; [by apply attach_new|done].
      * intros (nd' & Hl & Hp). f_equal.
        apply Hlook in Hl as [[-> _]|(nd0 & Hl0 & (_&_&E) & _)]; [done|].
        assert (Dict.get (child_path cp part) (deck_map st) = Some h) as Hmap.
        { apply (inv_map _ _ Hinv). exists nd0. split; [done|congruence]. }
        congruence.
    + rewrite (inv_map _ _ Hinv). split.
      * intros (nd0 & Hl0 & Hp). destruct (attach_grows st parent nd h nd0 Hl0)
          as (nd' & Hl & (_&_&E)). exists nd'. split; [done|congruence].
      * intros (nd' & Hl & Hp).
        apply Hlook in Hl as [[-> ->]|(nd0 & Hl0 & (_&_&E) & _)]; [done|].
        exists nd0. split; [done|congruence].
  - (* no reference twice *)
    rewrite Hslots. apply NoDup_cons. split; [done|]. apply (inv_slots_NoDup _ _ Hinv).
  - (* every node referenced *)
    intros h. rewrite Hslots, attach_length, elem_of_cons, (inv_slots _ _ Hinv).
    fold n. lia.
  - (* children are younger *)
    intros h nd' c Hl Hc.
    apply Hlook in Hl as [[-> ->]|(nd0 & Hl0 & _ & [E|[_ E]])].
    + by apply elem_of_nil in Hc.
    + rewrite E in Hc. by eapply (inv_order _ _ Hinv).
    + rewrite E in Hc. apply elem_of_app in Hc as [Hc|Hc%list_elem_of_singleton].
      * by eapply (inv_order _ _ Hinv).
      * rewrite Hc. by eapply lookup_lt_Some.
  - (* identifiers *)
    intros h nd' Hl.
    apply Hlook in Hl as [[-> ->]|(nd0 & Hl0 & (Ei&_&Ep) & _)].
    + simpl. destruct (decide (child_path cp part = d_name dk)) as [E|E]; [|by left].
      right. by exists dk.
    + rewrite Ei, Ep. by eapply (inv_ids _ _ Hinv).
  - (* paths of children *)
    intros h nd' c cd Hl Hc Hlc.
    apply Hlook in Hl as [[-> ->]|(nd0 & Hl0 & (_&_&Ep) & Hch)];
      [by apply elem_of_nil in Hc|].
    rewrite Ep.
    assert (c ∈ n_children nd0 ∨ (parent = Some h ∧ c = n)) as [Hc0|[Hpar ->]].
    { destruct Hch as [E|[? E]]; rewrite E in Hc; [by left|].
      apply elem_of_app in Hc as [?|?%list_elem_of_singleton]; [by left|by right]. }
    + pose proof (child_in_range _ _ _ _ Hinv Hl0 Hc0) as Hlt.
      apply Hlook in Hlc as [[-> _]|(cd0 & Hlc0 & (_&En&Ep') & _)]; [unfold n in Hlt; lia|].
      rewrite En, Ep'. by eapply (inv_child_path _ _ Hinv).
    + apply Hlook in Hlc as [[_ ->]|(cd0 & Hlc0 & _)];
        [|apply lookup_lt_Some in Hlc0; unfold n in Hlc0; lia].
      simpl. rewrite Hpar in Hlink. destruct Hlink as (nd1 & Hl1 & <-). congruence.
  - (* paths of roots *)
    intros r nd' Hr Hl.
    assert (r ∈ root_nodes st ∨ (parent = None ∧ r = n)) as [Hr0|[Hpar ->]].
    { unfold attach in Hr. destruct parent; simpl in Hr; [by left|].
      destruct (root_exists _ _ _); [by left|].
      apply elem_of_app in Hr as [?|?%list_elem_of_singleton]; [by left|by right]. }
    + pose proof (root_in_range _ _ Hinv Hr0) as Hlt.
      apply Hlook in Hl as [[-> _]|(nd0 & Hl0 & (_&En&Ep) & _)]; [unfold n in Hlt; lia|].
      rewrite En, Ep. by eapply (inv_root_path _ _ Hinv).
    + apply Hlook in Hl as [[_ ->]|(nd0 & Hl0 & _)];
        [|apply lookup_lt_Some in Hl0; unfold n in Hl0; lia].
      simpl. rewrite Hpar in Hlink. simpl in Hlink. by rewrite Hlink.
Qed.

(** One iteration of the inner loop keeps the state well formed and
    leaves [parent] on the node of the new [current_path]. *)
Lemma visit_part_inv st cp parent dk part :
  tree_inv dks st → dk ∈ dks → linked st cp parent →
  let '(st', cp', parent') := visit_part dk (st, cp, parent) part in
  tree_inv dks st' ∧ grows st st' ∧ cp' = child_path cp part
  ∧ (∃ p, parent' = Some p) ∧ linked st' cp' parent'.
Proof.
  intros Hinv Hdk Hlink. unfold visit_part.
  set (cp' := child_path cp part).
  destruct (Dict.get cp' (deck_map st)) as [h|] eqn:Hget.
  - rewrite Hget. split_and!; try done; [apply grows_refl|by eexists|].
    simpl. by apply (inv_map _ _ Hinv).
  - pose proof (attach_inv _ _ _ _ _ Hinv Hdk Hlink Hget) as Hinv'. fold cp' in Hinv'.
    set (st' := attach st parent (new_node dk cp' part)) in *.
    assert (heap st' !! length (heap st) = Some (new_node dk cp' part)) as Hnew.
    { apply attach_new. eauto using linked_in_range. }
    assert (Dict.get cp' (deck_map st') = Some (length (heap st))) as ->.
    { apply (inv_map _ _ Hinv'). by eexists. }
    split_and!; try done; [apply attach_grows|by eexists|].
    simpl. by eexists.
Qed.

Lemma visit_parts_inv dk parts st cp parent :
  tree_inv dks st → dk ∈ dks → linked st cp parent →
  let '(st', cp', parent') := foldl (visit_part dk) (st, cp, parent) parts in
  tree_inv dks st' ∧ grows st st' ∧ linked st' cp' parent'.
Proof.
  revert st cp parent. induction parts as [|part parts IH]; intros st cp parent Hinv Hdk Hlink.
  - simpl. split_and!; try done. apply grows_refl.
  - cbn [foldl]. pose proof (visit_part_inv st cp parent dk part Hinv Hdk Hlink) as Hstep.
    destruct (visit_part dk (st, cp, parent) part) as [[st1 cp1] parent1].
    destruct Hstep as (Hinv1 & Hg1 & _ & _ & Hlink1).
    specialize (IH st1 cp1 parent1 Hinv1 Hdk Hlink1).
    destruct (foldl (visit_part dk) (st1, cp1, parent1) parts) as [[st2 cp2] parent2].
    destruct IH as (Hinv2 & Hg2 & Hlink2). split_and!; try done.
    by eapply grows_trans.
Qed.

Lemma visit_deck_inv st dk :
  tree_inv dks st → dk ∈ dks → tree_inv dks (visit_deck st dk) ∧ grows st (visit_deck st dk).
Proof.
  intros Hinv Hdk. unfold visit_deck.
  pose proof (visit_parts_inv dk (Py.split (lit "::") (d_name dk)) st [] None Hinv Hdk eq_refl)
    as Hfold.
  destruct (foldl _ _ _) as [[st' cp'] parent']. simpl. by destruct Hfold as (? & ? & _).
Qed.

Lemma visit_decks_inv (l : list deck) st :
  tree_inv dks st → (∀ dk, dk ∈ l → dk ∈ dks) →
  tree_inv dks (foldl visit_deck st l) ∧ grows st (foldl visit_deck st l).
Proof.
  revert st. induction l as [|dk l IH]; intros st Hinv Hl; simpl.
  - split; [done|apply grows_refl].
  - destruct (visit_deck_inv st dk Hinv) as [Hinv1 Hg1]; [apply Hl; left|].
    destruct (IH _ Hinv1) as [Hinv2 Hg2]; [intros ??; apply Hl; by right|].
    split; [done|]. by eapply grows_trans.
Qed.
End tree_inv_facts.

(** ** Following references: which nodes the returned tree holds *)

Lemma join_NoDup_elem {A} (ls : list (list A)) (a : list A) :
  NoDup (mjoin ls) → a ∈ ls → NoDup a.
Proof.
  induction ls as [|b ls IH]; simpl; [by intros _ ?%elem_of_nil|].
  intros (Hb & _ & Hls)%NoDup_app [->|Hin]%elem_of_cons; [done|]. by apply IH.
Qed.

Lemma join_NoDup_index {A} (ls : list (list A)) i j (a b : list A) y :
  NoDup (mjoin ls) → ls !! i = Some a → ls !! j = Some b → y ∈ a → y ∈ b → i = j.
Proof.
  revert i j. induction ls as [|c ls IH]; intros i j Hnd Hi Hj Ha Hb; [done|].
  simpl in Hnd. apply NoDup_app in Hnd as (_ & Hdisj & Hls).
  destruct i as [|i], j as [|j]; simpl in *; simplify_eq; try done.
  - destruct (Hdisj y Ha). apply list_elem_of_join. exists b.
    split; [done|]. by eapply list_elem_of_lookup_2.
  - destruct (Hdisj y Hb). apply list_elem_of_join. exists a.
    split; [done|]. by eapply list_elem_of_lookup_2.
  - f_equal. by eapply IH.
Qed.

Section forest_facts.
Variable hp : list node.
Variable roots : list nat.
Hypothesis slots_NoDup : NoDup (roots ++ mjoin (n_children <$> hp)).
Hypothesis slots_range : ∀ h, h ∈ roots ++ mjoin (n_children <$> hp) ↔ h < length hp.
Hypothesis children_order : ∀ h nd c, hp !! h = Some nd → c ∈ n_children nd → h < c.

Local Abbreviation kids := (children_of hp).

Lemma kids_slot h c : c ∈ kids h → c ∈ mjoin (n_children <$> hp).
Proof.
  unfold children_of. destruct (hp !! h) as [nd|] eqn:Hh; [|by intros ?%elem_of_nil].
  intros Hc. apply list_elem_of_join. exists (n_children nd). split; [done|].
  apply list_elem_of_fmap. exists nd. split; [done|]. by eapply list_elem_of_lookup_2.
Qed.

Lemma kids_range h c : c ∈ kids h → c < length hp.
Proof. intros Hc%kids_slot. apply slots_range, elem_of_app. by right. Qed.

Lemma slot_parent c :
  c ∈ mjoin (n_children <$> hp) → ∃ q, q < c ∧ c ∈ kids q.
Proof.
  intros (l & Hc & (nd & -> & (q & Hq)%list_elem_of_lookup_1)%list_elem_of_fmap)%list_elem_of_join.
  exists q. split; [by eapply children_order|]. unfold children_of. by rewrite Hq.
Qed.

Lemma kids_parent_unique q1 q2 c : c ∈ kids q1 → c ∈ kids q2 → q1 = q2.
Proof.
  unfold children_of. destruct (hp !! q1) as [n1|] eqn:H1; [|by intros ?%elem_of_nil].
  destruct (hp !! q2) as [n2|] eqn:H2; [|by intros _ ?%elem_of_nil].
  apply NoDup_app in slots_NoDup as (_ & _ & Hnd).
  apply (join_NoDup_index (n_children <$> hp) q1 q2 (n_children n1) (n_children n2) c Hnd);
    by rewrite list_lookup_fmap, ?H1, ?H2.
Qed.

Lemma kids_NoDup q : NoDup (kids q).
Proof.
  unfold children_of. destruct (hp !! q) as [nd|] eqn:Hq; [|constructor].
  apply NoDup_app in slots_NoDup as (_ & _ & Hnd).
  apply (join_NoDup_elem _ _ Hnd), list_elem_of_fmap. exists nd.
  split; [done|]. by eapply list_elem_of_lookup_2.
Qed.

Lemma handles_unfold f hs :
  handles (S f) hp hs =
  hs ≫= λ h, if decide (h < length hp) then h :: handles f hp (kids h) else [].
Proof.
  simpl. induction hs as [|h hs IH]; [done|]. rewrite !bind_cons, IH. f_equal.
  unfold children_of. destruct (hp !! h) as [nd|] eqn:Hh.
  - apply lookup_lt_Some in Hh. by rewrite decide_True.
  - apply lookup_ge_None in Hh. rewrite decide_False; [done|lia].
Qed.

Lemma handles_range f hs x : x ∈ handles f hp hs → x < length hp.
Proof.
  revert hs x. induction f as [|f IH]; intros hs x; [by intros ?%elem_of_nil|].
  rewrite handles_unfold. intros (h & Hx & _)%list_elem_of_bind.
  destruct (decide (h < length hp)); [|by apply elem_of_nil in Hx].
  apply elem_of_cons in Hx as [->|Hx]; [done|]. by eapply IH.
Qed.

Lemma handles_mono f hs x : x ∈ handles f hp hs → x ∈ handles (S f) hp hs.
Proof.
  revert hs x. induction f as [|f IH]; intros hs x; [by intros ?%elem_of_nil|].
  rewrite (handles_unfold (S f)), handles_unfold.
  intros (h & Hx & Hh)%list_elem_of_bind. apply list_elem_of_bind. exists h.
  split; [|done]. destruct (decide (h < length hp)); [|done].
  apply elem_of_cons in Hx as [->|Hx]; [left|right]. by apply IH.
Qed.

Lemma handles_mono_le f f' hs x : f ≤ f' → x ∈ handles f hp hs → x ∈ handles f' hp hs.
Proof. induction 1; [done|]. intros. by apply handles_mono, IHle. Qed.

(** With one more unit of fuel the walk meets its starting points and
    the children of what it met before. *)
Lemma handles_S f hs :
  (∀ h, h ∈ hs → h < length hp) →
  handles (S f) hp hs ≡ₚ hs ++ (handles f hp hs ≫= kids).
Proof.
  revert hs. induction f as [|f IH]; intros hs Hhs.
  - rewrite handles_unfold. simpl. rewrite app_nil_r.
    induction hs as [|h hs IHhs]; [done|]. rewrite bind_cons.
    rewrite decide_True by (apply Hhs; left). simpl. f_equiv.
    apply IHhs. intros ??. apply Hhs. by right.
  - rewrite handles_unfold. induction hs as [|h hs IHhs]; [done|].
    rewrite bind_cons, decide_True by (apply Hhs; left).
    rewrite IHhs by (intros ??; apply Hhs; by right).
    rewrite (IH (kids h)) by apply kids_range.
    rewrite (handles_unfold f (h :: hs)), bind_cons, decide_True by (apply Hhs; left).
    rewrite bind_app, bind_cons, <-handles_unfold. simpl.
    f_equiv. apply Permutation_app_swap_app.
Qed.

(** No node is met twice. *)
Lemma handles_NoDup f : NoDup (handles f hp roots).
Proof.
  assert (∀ r, r ∈ roots → r < length hp) as Hroots.
  { intros r Hr. apply slots_range, elem_of_app. by left. }
  induction f as [|f IH]; [constructor|].
  rewrite handles_S by done. apply NoDup_app. split_and!.
  - by apply NoDup_app in slots_NoDup as (? & _ & _).
  - intros x Hx (q & Hq & _)%list_elem_of_bind.
    apply NoDup_app in slots_NoDup as (_ & Hdisj & _).
    apply (Hdisj x Hx). by apply (kids_slot q).
  - apply NoDup_bind; [|intros; apply kids_NoDup|done].
    intros q1 q2 c _ _. apply kids_parent_unique.
Qed.

(** Every node is met. *)
Lemma handles_complete x : x < length hp → x ∈ handles (length hp) hp roots.
Proof.
  assert (∀ r, r ∈ roots → r < length hp) as Hroots.
  { intros r Hr. apply slots_range, elem_of_app. by left. }
  intros Hx. apply (handles_mono_le (S x)); [lia|].
  induction (lt_wf x) as [x _ IH].
  rewrite handles_S by done.
  apply slots_range, elem_of_app in Hx as [Hr|Hc]; apply elem_of_app; [by left|right].
  apply slot_parent in Hc as (q & Hq & Hc).
  apply list_elem_of_bind. exists q. split; [done|].
  apply (handles_mono_le (S q)); [lia|]. apply IH; [done|].
  destruct (hp !! q) eqn:E; [by eapply lookup_lt_Some|].
  unfold children_of in Hc. rewrite E in Hc. by apply elem_of_nil in Hc.
Qed.
End forest_facts.

Section reify_facts.
Variable hp : list node.

(** The nodes of the reified trees are the nodes met by the walk, in
    the same order. *)
Lemma reify_handles f hs :
  Forall2 (λ t h, ∃ nd, hp !! h = Some nd ∧ labelled t nd)
          (tree_nodes (reify f hp hs)) (handles f hp hs).
Proof.
  unfold tree_nodes. revert hs. induction f as [|f IH]; intros hs; [constructor|].
  simpl. induction hs as [|h hs IHhs]; [constructor|].
  rewrite !bind_cons, bind_app. apply Forall2_app; [|done].
  destruct (hp !! h) as [nd|] eqn:Hh; [|constructor].
  rewrite bind_singleton. simpl. constructor; [|apply IH]. by exists nd.
Qed.

Lemma reify_roots f hs t :
  t ∈ reify (S f) hp hs → ∃ h nd, h ∈ hs ∧ hp !! h = Some nd ∧ labelled t nd.
Proof.
  simpl. intros (h & Ht & Hh)%list_elem_of_bind.
  destruct (hp !! h) as [nd|] eqn:E; [|by apply elem_of_nil in Ht].
  apply list_elem_of_singleton in Ht as ->. by exists h, nd.
Qed.

Lemma reify_root_of f hs h nd :
  h ∈ hs → hp !! h = Some nd → ∃ t, t ∈ reify (S f) hp hs ∧ labelled t nd.
Proof.
  intros Hh Hl. eexists. split.
  - simpl. apply list_elem_of_bind. exists h. split; [|done]. rewrite Hl. left.
  - done.
Qed.
End reify_facts.

Lemma join_snoc sep (l : list (list N)) x :
  l ≠ [] → Py.join sep (l ++ [x]) = Py.join sep l ++ sep ++ x.
Proof.
  induction l as [|a l IH]; [done|]. intros _. destruct l as [|b l]; [done|].
  change (Py.join sep ((a :: b :: l) ++ [x])) with (a ++ sep ++ Py.join sep ((b :: l) ++ [x])).
  rewrite IH by done. change (Py.join sep (a :: b :: l)) with (a ++ sep ++ Py.join sep (b :: l)).
  by rewrite <-!(assoc_L (++)).
Qed.

Lemma child_path_nil cp part : child_path cp part = [] → cp = [] ∧ part = [].
Proof.
  destruct cp as [|c cp]; simpl; [done|]. discriminate.
Qed.

(** ** Deck tree builder: the returned tree *)

Section build_facts.
Variable decks : list (str * deck).

Let dks := sorted_by_name (Dict.values decks).
Let st := build_state decks.

Lemma build_state_inv : tree_inv dks st.
Proof.
  unfold st, build_state. fold dks.
  by apply (visit_decks_inv dks dks _ (tree_inv_empty dks)).
Qed.

Lemma build_handles_spec :
  NoDup (handles (length (heap st)) (heap st) (root_nodes st))
  ∧ ∀ h, h < length (heap st) → h ∈ handles (length (heap st)) (heap st) (root_nodes st).
Proof.
  pose proof build_state_inv as Hinv. split.
  - apply handles_NoDup; [apply (inv_slots_NoDup _ _ Hinv)|apply (inv_slots _ _ Hinv)].
  - apply handles_complete; [apply (inv_slots _ _ Hinv)|apply (inv_order _ _ Hinv)].
Qed.

(** Every node of the returned tree shows a node object. *)
Lemma tree_nodes_sound t :
  t ∈ tree_nodes (build_deck_tree decks) →
  ∃ h nd, heap st !! h = Some nd ∧ labelled t nd.
Proof.
  intros (i & Hi)%list_elem_of_lookup_1.
  destruct (Forall2_lookup_l _ _ _ _ _ (reify_handles (heap st) _ (root_nodes st)) Hi)
    as (h & _ & nd & Hl & Hlab).
  by exists h, nd.
Qed.

(** Every node object is shown by a node of the returned tree. *)
Lemma tree_nodes_complete h nd :
  heap st !! h = Some nd →
  ∃ t, t ∈ tree_nodes (build_deck_tree decks) ∧ labelled t nd.
Proof.
  intros Hl. destruct build_handles_spec as [_ Hall].
  destruct (list_elem_of_lookup_1 _ _ (Hall h (lookup_lt_Some _ _ _ Hl))) as (i & Hi).
  destruct (Forall2_lookup_r _ _ _ _ _ (reify_handles (heap st) _ (root_nodes st)) Hi)
    as (t & Ht & nd' & Hl' & Hlab).
  exists t. split; [by eapply list_elem_of_lookup_2|]. congruence.
Qed.

(** No two nodes of the returned tree share their [fullPath]. *)
Theorem tree_fullPath_NoDup :
  NoDup (node_fullPath <$> tree_nodes (build_deck_tree decks)).
Proof.
  pose proof build_state_inv as Hinv. destruct build_handles_spec as [Hnd _].
  pose proof (reify_handles (heap st) (length (heap st)) (root_nodes st)) as HF.
  fold st in HF. unfold build_deck_tree. fold st.
  induction HF as [|t h ts hs (nd & Hl & (_&_&Hp)) HF IH]; [constructor|].
  apply NoDup_cons in Hnd as [Hh Hnd]. csimpl. apply NoDup_cons. split; [|by apply IH].
  intros (t' & Hp' & (i & Hi)%list_elem_of_lookup_1)%list_elem_of_fmap.
  destruct (Forall2_lookup_l _ _ _ _ _ HF Hi) as (h' & Hh' & nd' & Hl' & (_&_&Hp'')).
  assert (h = h') as ->; [|by apply Hh; eapply list_elem_of_lookup_2].
  assert (Dict.get (node_fullPath t) (deck_map st) = Some h) as E1.
  { apply (inv_map _ _ Hinv). by exists nd. }
  assert (Dict.get (node_fullPath t) (deck_map st) = Some h') as E2.
  { apply (inv_map _ _ Hinv). exists nd'. split; [done|congruence]. }
  congruence.
Qed.

(** An identifier in the tree is a synthesized one or that of a deck
    whose name is the node's path. *)
Lemma tree_node_id t :
  t ∈ tree_nodes (build_deck_tree decks) →
  node_id t = lit "virtual_" ++ node_fullPath t
  ∨ ∃ k dk, (k, dk) ∈ decks ∧ node_id t = d_id dk ∧ node_fullPath t = d_name dk.
Proof.
  intros (h & nd & Hl & (Ei & _ & Ep))%tree_nodes_sound. rewrite Ei, Ep.
  destruct (inv_ids _ _ build_state_inv h nd Hl) as [?|(dk & Hdk & ? & ?)]; [by left|].
  right. unfold dks in Hdk.
  assert (dk ∈ Dict.values decks) as Hin.
  { clear -Hdk. revert Hdk. generalize (Dict.values decks). intros l.
    unfold sorted_by_name. induction l as [|e l IH]; simpl; [done|].
    intros Hdk. assert (∀ d (l' : list deck), dk ∈ insert_by_name d l' → dk = d ∨ dk ∈ l') as Hins.
    { intros d l'. induction l' as [|e' l' IH']; simpl.
      - intros ?%list_elem_of_singleton. by left.
      - destruct (str_le _ _).
        + intros [->|?]%elem_of_cons; [by left|by right].
        + intros [->|?]%elem_of_cons; [right; left|].
          destruct IH' as [?|?]; [done|by left|right; by right]. }
    apply Hins in Hdk as [->|?]; [left|right; by apply IH]. }
  apply list_elem_of_fmap in Hin as ([k dk'] & -> & Hin). by exists k, dk'.
Qed.
End build_facts.

(** ** The default deck *)

Lemma elem_of_set {K V} `{EqDecision K} (k k' : K) (v v' : V) (d : list (K * V)) :
  (k, v) ∈ Dict.set k' v' d → (k, v) = (k', v') ∨ (k, v) ∈ d.
Proof.
  induction d as [|[k0 v0] d IH]; simpl.
  - intros ?%list_elem_of_singleton. by left.
  - destruct (decide (k' = k0)) as [->|?].
    + intros [?|?]%elem_of_cons; [by left|right; by right].
    + intros [->|?]%elem_of_cons; [right; left|].
      destruct IH as [?|?]; [done|by left|right; by right].
Qed.


Section default_deck_facts.
Variable lower : str → str.
Variable json_loads : str → result json.

(** A deck that is kept comes from a record whose name is no default
    label, under the record's key. *)
Lemma read_decks_kept its dks0 dks k dk :
  read_decks lower its dks0 = Ok dks → (k, dk) ∈ dks →
  (k, dk) ∈ dks0
  ∨ ∃ info, (k, info) ∈ its ∧ deck_name info = Ok (d_name dk)
      ∧ (lower (d_name dk) ∉ default_labels) ∧ d_id dk = k.
Proof.
  revert dks0. induction its as [|[deck_id deck_info] its IH]; intros dks0; simpl.
  - intros [= <-] ?. by left.
  - destruct (deck_name deck_info) as [name|e] eqn:Hname; simpl; [|done].
    destruct (bool_decide (lower name ∈ default_labels)) eqn:Hdef.
    + intros Hr Hin. destruct (IH _ Hr Hin) as [?|(info & ? & ?)]; [by left|].
      right. exists info. split; [by right|done].
    + intros Hr Hin. destruct (IH _ Hr Hin) as [Hset|(info & ? & ?)].
      * apply elem_of_set in Hset as [[= -> ->]|?]; [|by left].
        right. exists deck_info. apply bool_decide_eq_false in Hdef.
        split_and!; try done. left.
      * right. exists info. split; [by right|done].
Qed.

Lemma config_decks_NoDup db its :
  config_decks json_loads db = Ok its → NoDup (Dict.keys its).
Proof.
  unfold config_decks. destruct (col db) as [[row0 row1]|]; [|done].
  destruct (loads_or_empty json_loads row0) as [decks_json|]; simpl; [|done].
  destruct (loads_or_empty json_loads row1) as [tags_json|]; simpl; [|done].
  destruct decks_json; simpl; try done. intros [= <-]. apply of_pairs_NoDup.
Qed.

Lemma parse_decks_inv db dks :
  parse_decks lower json_loads db = Ok dks →
  ∃ its, config_decks json_loads db = Ok its ∧ read_decks lower its [] = Ok dks.
Proof.
  unfold parse_decks. destruct (config_decks json_loads db) as [its|]; simpl; [|done].
  intros ?. by exists its.
Qed.

End default_deck_facts.

(** ** Paths and segments *)

Lemma split_scan_head sep skip cur s :
  ∃ x rest, Py.split_scan sep skip cur s = (reverse cur ++ x) :: rest.
Proof.
  revert skip cur. induction s as [|c s IH]; intros skip cur; simpl.
  - exists [], []. by rewrite app_nil_r.
  - destruct skip as [|k]; [|apply IH].
    destruct (Py.startswith sep (c :: s)).
    + exists [], (Py.split_scan sep (pred (length sep)) [] s). by rewrite app_nil_r.
    + destruct (IH 0 (c :: cur)) as (x & rest & ->). exists (c :: x), rest.
      by rewrite reverse_cons, <-(assoc_L (++)).
Qed.

(** A name that does not begin with the separator has a non-empty first
    segment, unless it is its only segment. *)
Lemma split_first_nonempty sep s :
  Py.startswith sep s = false →
  match Py.split sep s with p0 :: _ :: _ => p0 ≠ [] | _ => True end.
Proof.
  unfold Py.split. destruct s as [|c s]; [done|]. intros Hs. simpl. rewrite Hs.
  destruct (split_scan_head sep 0 [c] s) as (x & rest & ->). by destruct rest.
Qed.

Lemma split_scan_prefix label rest cur :
  58%N ∉ label →
  Py.split_scan (lit "::") 0 cur (label ++ lit "::" ++ rest)
  = (reverse cur ++ label) :: Py.split (lit "::") rest.
Proof.
  revert cur. induction label as [|c label IH]; intros cur Hc.
  - by rewrite app_nil_r.
  - apply not_elem_of_cons in Hc as [Hc Hl].
    change ((c :: label) ++ lit "::" ++ rest) with (c :: (label ++ lit "::" ++ rest)).
    cbn [Py.split_scan]. change (lit "::") with [58%N; 58%N] at 1. cbn [Py.startswith].
    assert ((58 =? c)%N = false) as -> by (apply N.eqb_neq; congruence).
    cbn [andb]. rewrite (IH (c :: cur) Hl). by rewrite reverse_cons, <-(assoc_L (++)).
Qed.

(** Up to its first [::] a name without a colon before it is the first
    segment. *)
Lemma split_prefix label rest :
  58%N ∉ label →
  Py.split (lit "::") (label ++ lit "::" ++ rest) = label :: Py.split (lit "::") rest.
Proof. intros Hc. unfold Py.split at 1. by rewrite split_scan_prefix. Qed.

Section path_facts.
Variable dks : list deck.
Implicit Types (st : tree_state) (nd : node) (h c : nat) (dk : deck).

Lemma visit_parts_paths dk parts st cp parent :
  tree_inv dks st → dk ∈ dks → linked st cp parent →
  ∀ p, p ∈ paths_from cp parts →
    ∃ h nd, heap (foldl (visit_part dk) (st, cp, parent) parts).1.1 !! h = Some nd
            ∧ n_fullPath nd = p.
Proof.
  revert st cp parent. induction parts as [|part parts IH];
    intros st cp parent Hinv Hdk Hlink p; [by intros ?%elem_of_nil|].
  cbn [foldl paths_from].
  pose proof (visit_part_inv dks st cp parent dk part Hinv Hdk Hlink) as Hstep.
  destruct (visit_part dk (st, cp, parent) part) as [[st1 cp1] parent1].
  destruct Hstep as (Hinv1 & Hg1 & -> & [q ->] & Hlink1).
  intros [->|Hp]%elem_of_cons; [|by apply IH].
  destruct Hlink1 as (nd & Hq & Hpath).
  pose proof (visit_parts_inv dks dk parts st1 _ (Some q) Hinv1 Hdk
                (ex_intro _ nd (conj Hq Hpath))) as Hrest.
  destruct (foldl _ _ parts) as [[st2 cp2] parent2]. destruct Hrest as (_ & Hg2 & _).
  destruct (Hg2 q nd Hq) as (nd' & Hq' & (_&_&E)). exists q, nd'. simpl.
  split; [done|congruence].
Qed.

Lemma visit_decks_paths (l : list deck) st dk p :
  tree_inv dks st → (∀ dk, dk ∈ l → dk ∈ dks) → dk ∈ l →
  p ∈ paths_from [] (Py.split (lit "::") (d_name dk)) →
  ∃ h nd, heap (foldl visit_deck st l) !! h = Some nd ∧ n_fullPath nd = p.
Proof.
  revert st. induction l as [|dk0 l IH]; intros st Hinv Hl; [by intros ?%elem_of_nil|].
  destruct (visit_deck_inv dks st dk0 Hinv) as [Hinv1 Hg1]; [apply Hl; left|].
  intros [->|Hin]%elem_of_cons Hp; simpl.
  - destruct (visit_parts_paths dk0 (Py.split (lit "::") (d_name dk0)) st [] None Hinv)
      with (p := p) as (h & nd & Hh & Hpath); [apply Hl; left|done|done|].
    fold (visit_deck st dk0) in Hh.
    destruct (visit_decks_inv dks l _ Hinv1) as [_ Hg]; [intros ??; apply Hl; by right|].
    destruct (Hg h nd Hh) as (nd' & Hh' & (_&_&E)). exists h, nd'.
    split; [done|congruence].
  - apply IH; try done. intros ??. apply Hl. by right.
Qed.

(** A path with no colon is the name of its node. *)
Lemma colon_free_name st h nd :
  tree_inv dks st → heap st !! h = Some nd → 58%N ∉ n_fullPath nd →
  n_name nd = n_fullPath nd.
Proof.
  intros Hinv Hh Hcolon.
  pose proof (lookup_lt_Some _ _ _ Hh) as Hslot.
  apply (inv_slots _ _ Hinv), elem_of_app in Hslot as [Hr|Hc].
  - symmetry. by eapply (inv_root_path _ _ Hinv).
  - apply list_elem_of_join in Hc as (l & Hc & (q & -> & (i & Hq)%list_elem_of_lookup_1)%list_elem_of_fmap).
    pose proof (inv_child_path _ _ Hinv i q h nd Hq Hc Hh) as E.
    destruct (n_fullPath q) as [|a path]; [done|]. simpl in E.
    destruct Hcolon. rewrite E. apply elem_of_cons. right.
    apply elem_of_app. right. left.
Qed.

Lemma attach_no_empty_parent st cp parent nd :
  no_empty_parent st → linked st cp parent → (∀ p, parent = Some p → cp ≠ []) →
  n_children nd = [] → no_empty_parent (attach st parent nd).
Proof.
  intros Hne Hlink Hcp Hnd h nd' Hl Hpath.
  apply attach_lookup in Hl as [(_&_&->)|[(-> & Hp & _)|(nd0 & Hl0 & (_&_&E) & Hch)]]; [done| |].
  - rewrite Hp in Hlink. destruct Hlink as (x & Hx & _).
    apply lookup_lt_Some in Hx. lia.
  - destruct Hch as [->|[Hp ->]]; [apply (Hne h nd0 Hl0); congruence|].
    rewrite Hp in Hlink. destruct Hlink as (x & Hx & Hx').
    destruct (Hcp h Hp). congruence.
Qed.

Lemma visit_parts_no_empty_parent dk parts st cp parent :
  tree_inv dks st → dk ∈ dks → linked st cp parent → no_empty_parent st →
  safe_parts cp parent parts →
  no_empty_parent (foldl (visit_part dk) (st, cp, parent) parts).1.1.
Proof.
  revert st cp parent. induction parts as [|part parts IH];
    intros st cp parent Hinv Hdk Hlink Hne Hsafe; [done|].
  cbn [foldl].
  pose proof (visit_part_inv dks st cp parent dk part Hinv Hdk Hlink) as Hstep.
  assert (no_empty_parent (visit_part dk (st, cp, parent) part).1.1) as Hne1.
  { unfold visit_part. simpl. destruct (Dict.get _ (deck_map st)); [done|].
    eapply attach_no_empty_parent; [done|done| |done].
    intros p ->. by destruct Hsafe. }
  destruct (visit_part dk (st, cp, parent) part) as [[st1 cp1] parent1].
  destruct Hstep as (Hinv1 & Hg1 & -> & [q ->] & Hlink1).
  apply IH; try done. simpl.
  destruct parts as [|part' parts]; [by right|left].
  intros [-> ->]%child_path_nil. destruct parent as [p|]; simpl in Hsafe.
  - by destruct Hsafe.
  - done.
Qed.

Lemma visit_decks_no_empty_parent (l : list deck) st :
  tree_inv dks st → (∀ dk, dk ∈ l → dk ∈ dks) → no_empty_parent st →
  (∀ dk, dk ∈ l → Py.startswith (lit "::") (d_name dk) = false) →
  no_empty_parent (foldl visit_deck st l).
Proof.
  revert st. induction l as [|dk l IH]; intros st Hinv Hl Hne Hnames; [done|].
  simpl. destruct (visit_deck_inv dks st dk Hinv) as [Hinv1 _]; [apply Hl; left|].
  apply IH; try done.
  - intros ??. apply Hl. by right.
  - apply visit_parts_no_empty_parent; try done; [apply Hl; left|].
    apply split_first_nonempty, Hnames. left.
  - intros ??. apply Hnames. by right.
Qed.
End path_facts.

Lemma insert_by_name_elem d l x : x ∈ insert_by_name d l ↔ x = d ∨ x ∈ l.
Proof.
  induction l as [|e l IH]; simpl.
  - rewrite list_elem_of_singleton, elem_of_nil. tauto.
  - destruct (str_le _ _); rewrite !elem_of_cons, ?IH; tauto.
Qed.

Lemma sorted_by_name_elem l x : x ∈ sorted_by_name l ↔ x ∈ l.
Proof.
  unfold sorted_by_name. induction l as [|e l IH]; simpl; [done|].
  by rewrite insert_by_name_elem, elem_of_cons, IH.
Qed.

Section reify_paths.
Variable hp : list node.
Hypothesis child_paths : ∀ h nd c cd,
  hp !! h = Some nd → c ∈ n_children nd → hp !! c = Some cd →
  n_fullPath cd = child_path (n_fullPath nd) (n_name cd).
Hypothesis empty_childless : ∀ h nd,
  hp !! h = Some nd → n_fullPath nd = [] → n_children nd = [].

Lemma reify_joined f hs above :
  (∀ h nd, h ∈ hs → hp !! h = Some nd →
     n_fullPath nd = Py.join (lit "::") (above ++ [n_name nd])) →
  forallb (joined_paths above) (reify f hp hs) = true.
Proof.
  revert hs above. induction f as [|f IH]; intros hs above Hhs; [done|].
  simpl. induction hs as [|h hs IHhs]; [done|].
  rewrite bind_cons, forallb_app. apply andb_true_iff. split.
  - destruct (hp !! h) as [nd|] eqn:Hh; [|done]. simpl.
    rewrite andb_true_r. apply andb_true_iff. split.
    + apply bool_decide_eq_true. apply (Hhs h nd); [left|done].
    + apply IH. intros c cd Hc Hcd.
      rewrite (child_paths h nd c cd Hh Hc Hcd).
      rewrite join_snoc by (by destruct above).
      rewrite <-(Hhs h nd) by (done || left).
      destruct (n_fullPath nd) as [|a path] eqn:Hpath; [|done].
      rewrite (empty_childless h nd Hh Hpath) in Hc. by apply elem_of_nil in Hc.
  - apply IHhs. intros h' nd' ?. apply (Hhs h' nd'). by right.
Qed.
End reify_paths.

Section tree_theorems.
Variable decks : list (str * deck).

Let dks := sorted_by_name (Dict.values decks).
Let st := build_state decks.

(** Every prefix of every deck's name has its node in the returned
    tree. *)
Theorem tree_path_nodes k dk path :
  (k, dk) ∈ decks →
  path ∈ paths_from [] (Py.split (lit "::") (d_name dk)) →
  ∃ t, t ∈ tree_nodes (build_deck_tree decks) ∧ node_fullPath t = path.
Proof.
  intros Hin Hpath.
  assert (dk ∈ dks) as Hdk.
  { apply sorted_by_name_elem. by apply (list_elem_of_fmap_2 snd) in Hin. }
  destruct (visit_decks_paths dks dks _ dk path (tree_inv_empty dks))
    as (h & nd & Hh & Hp); try done.
  destruct (tree_nodes_complete decks h nd Hh) as (t & Ht & (_&_&E)).
  exists t. split; [done|congruence].
Qed.

Lemma build_no_empty_parent :
  (∀ k dk, (k, dk) ∈ decks → Py.startswith (lit "::") (d_name dk) = false) →
  no_empty_parent st.
Proof.
  intros Hnames. unfold st, build_state. fold dks.
  apply (visit_decks_no_empty_parent dks); try done.
  - apply tree_inv_empty.
  - intros dk ([k dk'] & -> & Hin)%sorted_by_name_elem%list_elem_of_fmap.
    by eapply Hnames.
Qed.

(** When no deck name begins with [::], every node's [fullPath] is the
    names of its ancestors and its own, joined by [::]. *)
Theorem tree_paths_joined :
  (∀ k dk, (k, dk) ∈ decks → Py.startswith (lit "::") (d_name dk) = false) →
  forallb (joined_paths []) (build_deck_tree decks) = true.
Proof.
  intros Hnames. pose proof (build_state_inv decks) as Hinv.
  apply reify_joined.
  - apply (inv_child_path _ _ Hinv).
  - by apply build_no_empty_parent.
  - intros h nd Hh Hl. simpl. by eapply (inv_root_path _ _ Hinv).
Qed.

(** A node whose path has no colon is at the root, unless some deck
    name begins with [::]. *)
Lemma colon_free_root h nd :
  no_empty_parent st → heap st !! h = Some nd → 58%N ∉ n_fullPath nd →
  h ∈ root_nodes st.
Proof.
  intros Hne Hh Hcolon. pose proof (build_state_inv decks) as Hinv.
  pose proof (lookup_lt_Some _ _ _ Hh) as Hslot.
  apply (inv_slots _ _ Hinv), elem_of_app in Hslot as [Hr|Hc]; [done|].
  apply list_elem_of_join in Hc as (l & Hc & (q & -> & (i & Hq)%list_elem_of_lookup_1)%list_elem_of_fmap).
  pose proof (inv_child_path _ _ Hinv i q h nd Hq Hc Hh) as E.
  destruct (n_fullPath q) as [|a path] eqn:Hpath.
  - rewrite (Hne i q Hq Hpath) in Hc. by apply elem_of_nil in Hc.
  - simpl in E. destruct Hcolon. rewrite E. apply elem_of_cons. right.
    apply elem_of_app. right. left.
Qed.

(** The node of a colon-free first segment that is the name of no deck:
    it is in the tree under a synthesized identifier. *)
Lemma first_segment_node k dk label rest :
  (k, dk) ∈ decks → d_name dk = label ++ lit "::" ++ rest → 58%N ∉ label →
  (∀ k' dk', (k', dk') ∈ decks → d_name dk' ≠ label) →
  (∃ t, t ∈ tree_nodes (build_deck_tree decks)
        ∧ node_id t = lit "virtual_" ++ label ∧ node_name t = label
        ∧ node_fullPath t = label)
  ∧ ((∀ k' dk', (k', dk') ∈ decks → Py.startswith (lit "::") (d_name dk') = false) →
     ∃ t, t ∈ build_deck_tree decks
          ∧ node_id t = lit "virtual_" ++ label ∧ node_name t = label
          ∧ node_fullPath t = label).
Proof.
  intros Hin Hname Hcolon Hfree. pose proof (build_state_inv decks) as Hinv.
  assert (dk ∈ dks) as Hdk.
  { apply sorted_by_name_elem. by apply (list_elem_of_fmap_2 snd) in Hin. }
  destruct (visit_decks_paths dks dks _ dk label (tree_inv_empty dks))
    as (h & nd & Hh & Hp); try done.
  { rewrite Hname, split_prefix by done. left. }
  fold (build_state decks) in Hh. fold st in Hh.
  assert (n_name nd = label) as Hn.
  { rewrite <-Hp. eapply colon_free_name; eauto. by rewrite Hp. }
  assert (n_id nd = lit "virtual_" ++ label) as Hi.
  { destruct (inv_ids _ _ Hinv h nd Hh) as [E|(dk' & Hdk' & _ & E)]; [by rewrite E, Hp|].
    apply sorted_by_name_elem, list_elem_of_fmap in Hdk' as ([k' dk''] & -> & Hin').
    destruct (Hfree k' dk'' Hin'). simpl in E. congruence. }
  split.
  - destruct (tree_nodes_complete decks h nd Hh) as (t & Ht & (Ei&En&Ep)).
    exists t. split_and!; congruence.
  - intros Hnames.
    assert (h ∈ root_nodes st) as Hroot.
    { apply (colon_free_root h nd); [by apply build_no_empty_parent|done|by rewrite Hp]. }
    unfold build_deck_tree. fold st.
    assert (h < length (heap st)) as Hlt by (eapply lookup_lt_Some; exact Hh).
    destruct (length (heap st)) as [|f] eqn:Hlen; [lia|].
    destruct (reify_root_of (heap st) f (root_nodes st) h nd Hroot Hh) as (t & Ht & (Ei&En&Ep)).
    exists t. split_and!; congruence.
Qed.
End tree_theorems.

(** C4 (the program departs from the claim): for the one deck
    [{"1": "::A"}] the first segment is empty, so [current_path] is still
    empty when the second segment is read and the separator is left out:
    the node [A] under the root with the empty name carries the
    [fullPath] [A], not the joined names [::A], and no node carries the
    deck's own identifier. *)
Theorem C4_leading_separator_breaks_fullPath :
  let decks := [(lit "1", {| d_id := lit "1"; d_name := lit "::A" |})] in
  build_deck_tree decks =
    [mkDeckNode (lit "virtual_") [] []
       [mkDeckNode (lit "virtual_A") (lit "A") (lit "A") []]]
  ∧ forallb (joined_paths []) (build_deck_tree decks) = false.
Proof. split; reflexivity. Qed.

Lemma set_elem_same {K V} `{EqDecision K} (k : K) (v : V) (d : list (K * V)) :
  (k, v) ∈ Dict.set k v d.
Proof.
  induction d as [|[k0 v0] d IH]; simpl; [left|].
  destruct (decide (k = k0)); [left|by right].
Qed.

Lemma set_elem_other {K V} `{EqDecision K} (k k' : K) (v v' : V) (d : list (K * V)) :
  (k, v) ∈ d → k ≠ k' → (k, v) ∈ Dict.set k' v' d.
Proof.
  intros Hin Hne. induction d as [|[k0 v0] d IH]; simpl; [by apply elem_of_nil in Hin|].
  apply elem_of_cons in Hin as [[= <- <-]|Hin].
  - rewrite decide_False by done. left.
  - destruct (decide (k' = k0)); right; [done|by apply IH].
Qed.

Section default_prefix_facts.
Variable lower : str → str.
Variable json_loads : str → result json.

Lemma read_decks_preserves its dks0 dks k dk :
  read_decks lower its dks0 = Ok dks → (k, dk) ∈ dks0 → k ∉ Dict.keys its →
  (k, dk) ∈ dks.
Proof.
  revert dks0. induction its as [|[deck_id deck_info] its IH]; intros dks0; simpl.
  - by intros [= <-].
  - rewrite not_elem_of_cons. destruct (deck_name deck_info) as [name|e]; simpl; [|done].
    intros Hr Hin [Hne Hk]. destruct (bool_decide _); [by eapply IH|].
    eapply IH; [done| |done]. by apply set_elem_other.
Qed.

(** A record whose name is no default label is kept under its key. *)
Lemma read_decks_keeps its dks0 dks k info name :
  read_decks lower its dks0 = Ok dks → NoDup (Dict.keys its) →
  (k, info) ∈ its → deck_name info = Ok name → lower name ∉ default_labels →
  (k, {| d_id := k; d_name := name |}) ∈ dks.
Proof.
  revert dks0. induction its as [|[deck_id deck_info] its IH]; intros dks0; simpl;
    [by intros _ _ ?%elem_of_nil|].
  intros Hr [Hfresh Hnd]%NoDup_cons [[= <- <-]|Hin]%elem_of_cons Hname Hdef.
  - rewrite Hname in Hr. simpl in Hr. rewrite bool_decide_eq_false_2 in Hr by done.
    eapply read_decks_preserves; [done|apply set_elem_same|done].
  - destruct (deck_name deck_info) as [name'|e]; simpl in Hr; [|done].
    destruct (bool_decide _); by eapply IH.
Qed.

(** A record named [label::rest], where [label] lower-cases to a default
    label and the whole name does not, is kept; the tree then holds a
    node named [label] whose identifier is the synthesized
    [virtual_label], and that node is a root unless some record's name
    begins with [::]. *)
Theorem default_prefix_node db out its deck_id deck_info label rest :
  parse_anki_collection lower json_loads db = Ok out →
  config_decks json_loads db = Ok its →
  (deck_id, deck_info) ∈ its →
  deck_name deck_info = Ok (label ++ lit "::" ++ rest) →
  lower label ∈ default_labels →
  lower (label ++ lit "::" ++ rest) ∉ default_labels →
  58%N ∉ label →
  (∃ dks, parse_decks lower json_loads db = Ok dks
          ∧ decks out = build_deck_tree dks
          ∧ (deck_id, {| d_id := deck_id; d_name := label ++ lit "::" ++ rest |}) ∈ dks)
  ∧ (∃ t, t ∈ tree_nodes (decks out)
          ∧ node_id t = lit "virtual_" ++ label ∧ node_name t = label
          ∧ node_fullPath t = label)
  ∧ ((∀ k info name, (k, info) ∈ its → deck_name info = Ok name →
        Py.startswith (lit "::") name = false) →
     ∃ t, t ∈ decks out
          ∧ node_id t = lit "virtual_" ++ label ∧ node_name t = label
          ∧ node_fullPath t = label).
Proof.
  intros (dks & Hdks & -> & _)%parse_inv Hits Hin Hname Hlabel Hwhole Hcolon.
  destruct (parse_decks_inv _ _ _ _ Hdks) as (its' & Hits' & Hread).
  assert (its' = its) as -> by congruence.
  pose proof (read_decks_keeps _ _ _ _ _ _ Hread (config_decks_NoDup _ _ _ Hits)
                Hin Hname Hwhole) as Hkept.
  destruct (first_segment_node dks _ _ label rest Hkept eq_refl Hcolon) as [Hnode Hroot].
  { intros k' dk' Hk' E.
    destruct (read_decks_kept _ _ _ _ _ _ Hread Hk') as [?%elem_of_nil|(_ & _ & _ & Hnd & _)];
      [done|]. apply Hnd. by rewrite E. }
  split_and!; [by exists dks|done|].
  intros Hnames. apply Hroot. intros k' dk' Hk'.
  destruct (read_decks_kept _ _ _ _ _ _ Hread Hk') as [?%elem_of_nil|(info & Hi & Hn & _)];
    [done|]. by eapply Hnames.
Qed.
End default_prefix_facts.

(** ** The statements at sample inputs *)

Lemma C1_witness :
  ∃ out, parse_anki_collection Sim.lower (Sim.loads []) cards_db = Ok out
    ∧ ∃ r, r ∈ cards_by_ord cards_db ∧ card_nid r = 1%Z
        ∧ (∀ r', r' ∈ cards_by_ord cards_db → card_nid r' = 1%Z →
             (card_ord r ≤ card_ord r')%Z)
        ∧ filter (λ e, e.1 = 1%Z)
            (collect_cards (read_notes (notes_table cards_db)) (cards_by_ord cards_db))
          = [(1%Z, make_card (read_notes (notes_table cards_db)) r)].
Proof.
  eexists. split; [reflexivity|].
  refine (proj2 (C1_one_card_per_note Sim.lower (Sim.loads []) cards_db _ _ eq_refl) 1%Z _).
  - unfold ordered_by_ord. simpl. repeat constructor; simpl; lia.
  - eexists. split; [left|reflexivity].
Defined.

Lemma C3_witness :
  clean_html (clean_html (lit "  <b>1 &lt; 2</b> [sound:a.mp3] Q&amp;A&nbsp; "))
  = clean_html (lit "  <b>1 &lt; 2</b> [sound:a.mp3] Q&amp;A&nbsp; ").
Proof. apply C3_idempotent_without_markup. reflexivity. Defined.

Lemma C5_witness :
  ∃ w1, extract_media (Sim.loads []) (lit "deck.colpkg") (lit "out")
          (archive_world [(lit "media", [255%N])])
        = (Raise UnicodeDecodeError, w1, []).
Proof.
  eexists.
  eapply (C5_undecodable_media_raises (Sim.loads []) (lit "deck.colpkg") (lit "out")
            (archive_world [(lit "media", [255%N])])); reflexivity.
Defined.

Lemma C7_witness :
  (extract_colpkg (lit "deck.colpkg") (lit "tmp")
     (archive_world [(lit "collection.anki2", [1%N])])).1
  = Ok (lit "tmp/collection.anki2").
Proof.
  pose proof (C7_database_priority (lit "deck.colpkg") (lit "tmp")
                (archive_world [(lit "collection.anki2", [1%N])]) _ _ eq_refl eq_refl) as [E _].
  rewrite E. reflexivity.
Defined.

Lemma C8_witness :
  ∃ c, Dict.get 99%Z
         (collect_cards (read_notes (notes_table cards_db)) (cards_by_ord cards_db)) = Some c
    ∧ front c = [] ∧ frontClean c = [] ∧ back c = [] ∧ backClean c = []
    ∧ ∃ out, parse_anki_collection Sim.lower (Sim.loads []) cards_db = Ok out ∧ c ∈ cards out.
Proof.
  destruct (C8_missing_note_empty_card Sim.lower (Sim.loads []) cards_db
              {| card_id := 12; card_nid := 99; card_did := 5; card_ord := 1 |})
    as (c & Hget & Hf & Hfc & Hb & Hbc & Hout).
  - simpl. do 2 right. left.
  - apply Forall_forall. simpl. repeat constructor. simpl. lia.
  - exists c. split_and!; try done. by apply (Hout []).
Defined.

Lemma C9_witness :
  path_isdir (path_join (lit "out") (lit "media"))
    (extract_media (Sim.loads []) (lit "deck.colpkg") (lit "out") (archive_world [])).1.2
  = true.
Proof.
  eapply (C9_media_dir_exists (Sim.loads []) (lit "deck.colpkg") (lit "out") (archive_world [])).
  reflexivity.
Defined.

(** C9 as stated fails: where a regular file already has the name of
    the media directory, [os.makedirs] raises and no directory is there
    when [extract_media] is left. *)
Lemma C9_media_path_occupied :
  (extract_media (Sim.loads []) (lit "deck.colpkg") (lit "out") occupied_world).1.1
  = Raise FileExistsError
  ∧ path_isdir (path_join (lit "out") (lit "media"))
      (extract_media (Sim.loads []) (lit "deck.colpkg") (lit "out") occupied_world).1.2
    = false.
Proof. split; reflexivity. Qed.



Lemma default_prefix_node_sample :
  ∃ out,
    parse_anki_collection Sim.lower (decks_loads [("5", "Default::Sub")]%string)
      (decks_db [("5", "Default::Sub")]%string) = Ok out
    ∧ ∃ t, t ∈ decks out
        ∧ node_id t = lit "virtual_" ++ lit "Default" ∧ node_name t = lit "Default"
        ∧ node_fullPath t = lit "Default".
Proof.
  eexists. split; [reflexivity|].
  refine (proj2 (proj2 (default_prefix_node Sim.lower
            (decks_loads [("5", "Default::Sub")]%string)
            (decks_db [("5", "Default::Sub")]%string)
            _ _ (lit "5") (JObj [(lit "name", JStr (lit "Default::Sub"))])
            (lit "Default") (lit "Sub") eq_refl eq_refl _ eq_refl _ _ _)) _).
  - left.
  - by apply (bool_decide_unpack _).
  - by apply (bool_decide_unpack _).
  - by apply (bool_decide_unpack _).
  - intros k info name Hin%list_elem_of_singleton Hname.
    injection Hin as -> ->. injection Hname as <-. reflexivity.
Defined.

(** C10 (the program departs from the claim): with the decks
    [{"1": "::Default::x", "2": "Default::Sub"}] the second deck is kept
    and the node [Default] carries the synthesized identifier, but the
    first deck has put that node under the root with the empty name: the
    node of the default label is not a root.  The cause is the one of C4,
    the separator left out after an empty first segment. *)
Theorem C10_default_prefix_not_root :
  parse_anki_collection Sim.lower
    (decks_loads [("1", "::Default::x"); ("2", "Default::Sub")]%string)
    (decks_db [("1", "::Default::x"); ("2", "Default::Sub")]%string)
  = Ok {| decks :=
            [mkDeckNode (lit "virtual_") [] []
               [mkDeckNode (lit "virtual_Default") (lit "Default") (lit "Default")
                  [mkDeckNode (lit "virtual_Default::x") (lit "x") (lit "Default::x") [];
                   mkDeckNode (lit "2") (lit "Sub") (lit "Default::Sub") []]]];
          cards := [] |}.
Proof. reflexivity. Qed.

(** * Further properties

    What the functions do beyond the statements above: the passes of the
    sanitizer one by one, the order and the content of the cards, the
    decks that are kept, the media that are copied, and the paths and
    identifiers of the deck tree. *)

(** ** Sanitizer: what each pass does *)

Lemma clean_html_passes s :
  s ≠ [] →
  clean_html s = Py.strip (decode_entities (drop_tags (break_lines (drop_sounds s)))).
Proof. by destruct s. Qed.

Lemma fix_media_paths_passes s : fix_media_paths s = rewrite_sounds (rewrite_src s).
Proof. by destruct s. Qed.

Lemma sub_scan_skip m a s : Py.sub_scan m (length a) (a ++ s) = Py.sub_scan m 0 s.
Proof. induction a as [|c a IH]; [done|]. exact IH. Qed.

(** A match at the head is replaced and the scan goes on behind it. *)
Lemma sub_match m x s repl :
  x ≠ [] → m (x ++ s) = Some (repl, length x) → Py.sub m (x ++ s) = repl ++ Py.sub m s.
Proof.
  destruct x as [|c x]; [done|]. intros _ Hm. unfold Py.sub.
  change ((c :: x) ++ s) with (c :: (x ++ s)) in *. cbn [Py.sub_scan]. rewrite Hm.
  simpl. by rewrite sub_scan_skip.
Qed.

Lemma sub_head m c r : m (c :: r) = None → Py.sub m (c :: r) = c :: Py.sub m r.
Proof. intros Hm. unfold Py.sub. cbn [Py.sub_scan]. by rewrite Hm. Qed.

(** Where no match can start, the text is copied. *)
Lemma sub_prefix m a s :
  (∀ pre c suf, a = pre ++ c :: suf → m (c :: suf ++ s) = None) →
  Py.sub m (a ++ s) = a ++ Py.sub m s.
Proof.
  induction a as [|c a IH]; intros Hm; [done|].
  change ((c :: a) ++ s) with (c :: (a ++ s)).
  rewrite sub_head by apply (Hm [] c a eq_refl). simpl. f_equal. apply IH.
  intros pre c' suf ->. by apply (Hm (c :: pre)).
Qed.

(** A matcher that needs [trigger] at the head copies text without it. *)
Lemma sub_avoid m trigger a s :
  (∀ c r, c ≠ trigger → m (c :: r) = None) → trigger ∉ a →
  Py.sub m (a ++ s) = a ++ Py.sub m s.
Proof.
  intros Hm Ha. apply sub_prefix. intros pre c suf ->. apply Hm. intros ->.
  apply Ha, elem_of_app. right. left.
Qed.

Lemma sub_avoid_all m trigger a :
  (∀ c r, c ≠ trigger → m (c :: r) = None) → trigger ∉ a → Py.sub m a = a.
Proof.
  intros Hm Ha. pose proof (sub_avoid m trigger a [] Hm Ha) as H.
  by rewrite !app_nil_r in H.
Qed.

Lemma m_sound_trigger c r : c ≠ Re.c_lbrack → Re.m_sound (c :: r) = None.
Proof.
  intros Hc. destruct (Re.m_sound (c :: r)) as [x|] eqn:E; [|done].
  apply m_sound_Some in E as [t E]. lit_compute. by injection E.
Qed.

Lemma m_br_trigger c r : c ≠ Re.c_lt → Re.m_br (c :: r) = None.
Proof.
  intros Hc. destruct (Re.m_br (c :: r)) as [x|] eqn:E; [|done].
  apply m_br_Some in E as [t E]. by injection E.
Qed.

Lemma m_tag_trigger c r : c ≠ Re.c_lt → Re.m_tag (c :: r) = None.
Proof.
  intros Hc. destruct (Re.m_tag (c :: r)) as [x|] eqn:E; [|done].
  apply m_tag_Some in E as [t E]. by injection E.
Qed.

Lemma drop_sounds_avoid a s : Re.c_lbrack ∉ a → drop_sounds (a ++ s) = a ++ drop_sounds s.
Proof.
  apply sub_avoid. intros c r Hc. by rewrite m_sound_trigger.
Qed.

Lemma drop_sounds_free a : Re.c_lbrack ∉ a → drop_sounds a = a.
Proof. apply sub_avoid_all. intros c r Hc. by rewrite m_sound_trigger. Qed.

Lemma rewrite_sounds_avoid a s :
  Re.c_lbrack ∉ a → rewrite_sounds (a ++ s) = a ++ rewrite_sounds s.
Proof. apply sub_avoid. intros c r Hc. by rewrite m_sound_trigger. Qed.

Lemma rewrite_sounds_free a : Re.c_lbrack ∉ a → rewrite_sounds a = a.
Proof. apply sub_avoid_all. intros c r Hc. by rewrite m_sound_trigger. Qed.

Lemma break_lines_avoid a s : Re.c_lt ∉ a → break_lines (a ++ s) = a ++ break_lines s.
Proof. apply sub_avoid. intros c r Hc. by rewrite m_br_trigger. Qed.

Lemma break_lines_free a : Re.c_lt ∉ a → break_lines a = a.
Proof. apply sub_avoid_all. intros c r Hc. by rewrite m_br_trigger. Qed.

Lemma drop_tags_avoid a s : Re.c_lt ∉ a → drop_tags (a ++ s) = a ++ drop_tags s.
Proof. apply sub_avoid. intros c r Hc. by rewrite m_tag_trigger. Qed.

Lemma drop_tags_free a : Re.c_lt ∉ a → drop_tags a = a.
Proof. apply sub_avoid_all. intros c r Hc. by rewrite m_tag_trigger. Qed.

Lemma decode_entities_free a : Re.c_amp ∉ a → decode_entities a = a.
Proof.
  intros Ha. unfold decode_entities.
  change (lit "&nbsp;") with (Re.c_amp :: lit "nbsp;").
  change (lit "&lt;") with (Re.c_amp :: lit "lt;").
  change (lit "&gt;") with (Re.c_amp :: lit "gt;").
  change (lit "&amp;") with (Re.c_amp :: lit "amp;").
  change (lit "&quot;") with (Re.c_amp :: lit "quot;").
  by rewrite !(replace_no_head Re.c_amp _ _ a Ha).
Qed.

Lemma span_not_stop stop x r :
  stop ∉ x → Py.span_not stop (x ++ stop :: r) = (x, stop :: r).
Proof.
  induction x as [|c x IH]; simpl.
  - intros _. by rewrite N.eqb_refl.
  - rewrite not_elem_of_cons. intros [Hc Hx].
    assert ((c =? stop)%N = false) as -> by (apply N.eqb_neq; congruence).
    by rewrite IH.
Qed.

Lemma startswith_prefix p r : Py.startswith p (p ++ r) = true.
Proof. induction p as [|c p IH]; [done|]. simpl. by rewrite N.eqb_refl. Qed.

Lemma m_sound_match name r :
  name ≠ [] → Re.c_rbrack ∉ name →
  Re.m_sound (lit "[sound:" ++ name ++ Re.c_rbrack :: r)
  = Some (name, length (lit "[sound:" ++ name ++ [Re.c_rbrack])).
Proof.
  intros Hn Hr. unfold Re.m_sound. rewrite startswith_prefix.
  change (drop 7 (lit "[sound:" ++ name ++ Re.c_rbrack :: r)) with (name ++ Re.c_rbrack :: r).
  rewrite span_not_stop by done. destruct name as [|c name]; [done|].
  rewrite !length_app. simpl. do 2 f_equal; lia.
Qed.

Lemma m_tag_match t r :
  t ≠ [] → Re.c_gt ∉ t →
  Re.m_tag (Re.c_lt :: t ++ Re.c_gt :: r) = Some (length (Re.c_lt :: t ++ [Re.c_gt])).
Proof.
  intros Ht Hg. unfold Re.m_tag. rewrite N.eqb_refl, span_not_stop by done.
  destruct t as [|c t]; [done|]. simpl. rewrite !length_app. simpl. do 2 f_equal; lia.
Qed.

Lemma m_br_match r : Re.m_br (lit "<br>" ++ r) = Some 4.
Proof. lit_compute. simpl. by rewrite Nat.sub_diag. Qed.

Lemma sound_sub f name b :
  name ≠ [] → Re.c_rbrack ∉ name →
  Py.sub (λ s, (λ '(x, n), (f x, n)) <$> Re.m_sound s)
    (lit "[sound:" ++ name ++ Re.c_rbrack :: b)
  = f name ++ Py.sub (λ s, (λ '(x, n), (f x, n)) <$> Re.m_sound s) b.
Proof.
  intros Hn Hr.
  assert (lit "[sound:" ++ name ++ Re.c_rbrack :: b
          = (lit "[sound:" ++ name ++ [Re.c_rbrack]) ++ b) as E.
  { by rewrite <-!(assoc_L (++)). }
  rewrite E. apply sub_match; [lit_compute; done|].
  by rewrite <-E, m_sound_match.
Qed.

Lemma drop_sounds_match name b :
  name ≠ [] → Re.c_rbrack ∉ name →
  drop_sounds (lit "[sound:" ++ name ++ Re.c_rbrack :: b) = drop_sounds b.
Proof. apply (sound_sub (λ _, [])). Qed.

Lemma rewrite_sounds_match name b :
  name ≠ [] → Re.c_rbrack ∉ name →
  rewrite_sounds (lit "[sound:" ++ name ++ Re.c_rbrack :: b)
  = audio_element name ++ rewrite_sounds b.
Proof. apply (sound_sub audio_element). Qed.

Lemma drop_tags_match t b :
  t ≠ [] → Re.c_gt ∉ t → drop_tags (Re.c_lt :: t ++ Re.c_gt :: b) = drop_tags b.
Proof.
  intros Ht Hg.
  assert (Re.c_lt :: t ++ Re.c_gt :: b = (Re.c_lt :: t ++ [Re.c_gt]) ++ b) as E.
  { simpl. by rewrite <-(assoc_L (++)). }
  rewrite E. unfold drop_tags. rewrite (sub_match _ _ _ []); [done|done|].
  by rewrite <-E, m_tag_match.
Qed.

Lemma break_lines_match b : break_lines (lit "<br>" ++ b) = Re.c_nl :: break_lines b.
Proof.
  unfold break_lines. rewrite (sub_match _ _ _ [Re.c_nl]); [done|lit_compute; done|].
  by rewrite m_br_match.
Qed.

Section plain_facts.
Implicit Types (a b t : str).

Lemma plain_app a b : plain a → plain b → plain (a ++ b).
Proof.
  intros (?&?&?) (?&?&?). unfold plain. rewrite !elem_of_app. tauto.
Qed.

Lemma plain_clean t : plain t → clean_html t = Py.strip t.
Proof.
  intros (Hlt & Hamp & Hbr). apply clean_html_plain; try done.
  intros pre post ->. apply Hbr. apply elem_of_app. right. lit_compute. left.
Qed.

Lemma plain_tail t : plain t → decode_entities (drop_tags (break_lines t)) = t.
Proof.
  intros (Hlt & Hamp & _). by rewrite break_lines_free, drop_tags_free, decode_entities_free.
Qed.
End plain_facts.

Lemma strip_head s c : head (Py.strip s) = Some c → Py.isspace c = false.
Proof.
  unfold Py.strip. pose proof (lstrip_head s) as H.
  destruct (Py.lstrip s) as [|c0 r]; [done|].
  rewrite (rstrip_cons c0 r H). by intros [= <-].
Qed.

Lemma strip_last s c : last (Py.strip s) = Some c → Py.isspace c = false.
Proof.
  unfold Py.strip, Py.rstrip. rewrite last_reverse.
  pose proof (lstrip_head (reverse (Py.lstrip s))) as H.
  destruct (Py.lstrip (reverse (Py.lstrip s))); [done|]. by intros [= <-].
Qed.

(** X1: the text [clean_html] returns neither begins nor ends with a
    white-space character. *)
Theorem clean_html_trimmed (s : str) (c : char) :
  head (clean_html s) = Some c ∨ last (clean_html s) = Some c → Py.isspace c = false.
Proof.
  rewrite <-clean_html_stripped. intros [H|H]; [by eapply strip_head|by eapply strip_last].
Qed.

(** X2: text without tag opener, ampersand and sound reference is only
    stripped of the white space around it. *)
Theorem clean_html_of_plain_text (t : str) :
  Re.c_lt ∉ t → Re.c_amp ∉ t →
  (∀ pre post, t ≠ pre ++ lit "[sound:" ++ post) →
  clean_html t = Py.strip t.
Proof. apply clean_html_plain. Qed.

(** X3: a sound reference leaves nothing in the plain text: around it
    the text is joined and stripped. *)
Theorem clean_html_drops_sound (a name b : str) :
  plain a → plain b → name ≠ [] → Re.c_rbrack ∉ name →
  clean_html (a ++ lit "[sound:" ++ name ++ Re.c_rbrack :: b) = Py.strip (a ++ b).
Proof.
  intros Ha Hb Hn Hr. rewrite clean_html_passes; last first.
  { lit_compute. by destruct a. }
  f_equal. rewrite drop_sounds_avoid by apply Ha.
  rewrite drop_sounds_match, drop_sounds_free by (done || apply Hb).
  apply plain_tail. by apply plain_app.
Qed.

(** X4: a tag that is no line break is dropped and the text around it
    kept. *)
Theorem clean_html_drops_tag (a t b : str) :
  plain a → plain b → t ≠ [] →
  Re.c_gt ∉ t → Re.c_lt ∉ t → Re.c_lbrack ∉ t →
  Re.m_br (Re.c_lt :: t ++ Re.c_gt :: b) = None →
  clean_html (a ++ Re.c_lt :: t ++ Re.c_gt :: b) = Py.strip (a ++ b).
Proof.
  intros Ha Hb Ht Hg Hl Hk Hbr. rewrite clean_html_passes by (by destruct a).
  f_equal. destruct Ha as (Hal & Haa & Hab), Hb as (Hbl & Hba & Hbb).
  rewrite drop_sounds_free; last first.
  { rewrite elem_of_app, elem_of_cons, elem_of_app, elem_of_cons.
    intros [?|[?|[?|[?|?]]]]; done. }
  rewrite break_lines_avoid by done.
  unfold break_lines at 1. rewrite sub_head by (by rewrite Hbr).
  fold (break_lines (t ++ Re.c_gt :: b)). rewrite break_lines_free; last first.
  { rewrite elem_of_app, elem_of_cons. intros [?|[?|?]]; done. }
  rewrite drop_tags_avoid, drop_tags_match, drop_tags_free by done.
  apply decode_entities_free. rewrite elem_of_app. tauto.
Qed.

(** ** Sanitizer: entities *)

Section entity_facts.
Implicit Types (a b s old new : str).

Lemma replace_avoid old new a s :
  Re.c_amp ∉ a →
  Py.replace (Re.c_amp :: old) new (a ++ s) = a ++ Py.replace (Re.c_amp :: old) new s.
Proof.
  apply sub_avoid. intros c r Hc.
  destruct (Py.startswith _ (c :: r)) eqn:E; [|done].
  by apply startswith_head in E.
Qed.

Lemma replace_hit old new s :
  old ≠ [] → Py.replace old new (old ++ s) = new ++ Py.replace old new s.
Proof. intros Hold. apply sub_match; [done|]. by rewrite startswith_prefix. Qed.

Lemma replace_miss old new c r :
  Py.startswith old (c :: r) = false →
  Py.replace old new (c :: r) = c :: Py.replace old new r.
Proof. intros Hs. apply sub_head. by rewrite Hs. Qed.

(** An entity between two texts without ampersand is replaced by its
    character. *)
Lemma replace_entity old new a b :
  Re.c_amp ∉ a → Re.c_amp ∉ b →
  Py.replace (Re.c_amp :: old) new (a ++ Re.c_amp :: old ++ b) = a ++ new ++ b.
Proof.
  intros Ha Hb. rewrite replace_avoid, (app_comm_cons old b Re.c_amp) by done.
  by rewrite replace_hit, replace_no_head.
Qed.

(** Another entity, or a lone ampersand, is left alone. *)
Lemma replace_other old new a r :
  Re.c_amp ∉ a → Re.c_amp ∉ r →
  Py.startswith (Re.c_amp :: old) (Re.c_amp :: r) = false →
  Py.replace (Re.c_amp :: old) new (a ++ Re.c_amp :: r) = a ++ Re.c_amp :: r.
Proof.
  intros Ha Hr Hs. by rewrite replace_avoid, replace_miss, replace_no_head.
Qed.
End entity_facts.

(** X5: an entity between two plain texts is decoded to its character;
    for the ampersand entity the text after it must not go on as the
    rest of the quote entity. *)
Theorem clean_html_decodes_entity (a b ent ch : str) :
  (ent, ch) ∈ entities → plain a → plain b →
  (ent = lit "&amp;" → Py.startswith (lit "quot;") b = false) →
  clean_html (a ++ ent ++ b) = Py.strip (a ++ ch ++ b).
Proof.
  intros Hent (Hal & Haa & Hab) (Hbl & Hba & Hbb) Hquot.
  assert ((Re.c_lt ∉ ent) ∧ (Re.c_lbrack ∉ ent) ∧ ent ≠ []) as (Hel & Heb & Hne).
  { unfold entities in Hent. elem_cases Hent; injection Hent as -> ->;
      (split_and!; [not_in_lit|not_in_lit|done]). }
  rewrite clean_html_passes by (by destruct a, ent).
  f_equal.
  rewrite drop_sounds_free, break_lines_free, drop_tags_free by not_in_app.
  unfold decode_entities, entities in *.
  change (lit "&nbsp;") with (Re.c_amp :: lit "nbsp;") in *.
  change (lit "&lt;") with (Re.c_amp :: lit "lt;") in *.
  change (lit "&gt;") with (Re.c_amp :: lit "gt;") in *.
  change (lit "&amp;") with (Re.c_amp :: lit "amp;") in *.
  change (lit "&quot;") with (Re.c_amp :: lit "quot;") in *.
  elem_cases Hent; injection Hent as -> ->; rewrite <-app_comm_cons.
  - rewrite replace_entity by done.
    match goal with
    | |- context [Py.replace _ _ (a ++ ?x ++ b)] =>
        assert (Re.c_amp ∉ a ++ x ++ b) as Hs by not_in_app
    end.
    by rewrite !(replace_no_head Re.c_amp _ _ _ Hs).
  - rewrite (replace_other (lit "nbsp;")); [|done|not_in_app|done].
    rewrite replace_entity by done.
    match goal with
    | |- context [Py.replace _ _ (a ++ ?x ++ b)] =>
        assert (Re.c_amp ∉ a ++ x ++ b) as Hs by not_in_app
    end.
    by rewrite !(replace_no_head Re.c_amp _ _ _ Hs).
  - rewrite (replace_other (lit "nbsp;")); [|done|not_in_app|done].
    rewrite (replace_other (lit "lt;")); [|done|not_in_app|done].
    rewrite replace_entity by done.
    match goal with
    | |- context [Py.replace _ _ (a ++ ?x ++ b)] =>
        assert (Re.c_amp ∉ a ++ x ++ b) as Hs by not_in_app
    end.
    by rewrite !(replace_no_head Re.c_amp _ _ _ Hs).
  - rewrite (replace_other (lit "nbsp;")); [|done|not_in_app|done].
    rewrite (replace_other (lit "lt;")); [|done|not_in_app|done].
    rewrite (replace_other (lit "gt;")); [|done|not_in_app|done].
    rewrite replace_entity by done.
    change (lit "&" ++ b) with (Re.c_amp :: b).
    rewrite replace_other; [done..|].
    change (Py.startswith (lit "quot;") b = false). by apply Hquot.
  - rewrite (replace_other (lit "nbsp;")); [|done|not_in_app|done].
    rewrite (replace_other (lit "lt;")); [|done|not_in_app|done].
    rewrite (replace_other (lit "gt;")); [|done|not_in_app|done].
    rewrite (replace_other (lit "amp;")); [|done|not_in_app|done].
    by rewrite replace_entity.
Qed.

Lemma join_cons sep (p : str) (rest : list str) :
  rest ≠ [] → Py.join sep (p :: rest) = p ++ sep ++ Py.join sep rest.
Proof. by destruct rest. Qed.

Lemma join_free (c : char) sep (parts : list str) :
  c ∉ sep → Forall (λ p, c ∉ p) parts → c ∉ Py.join sep parts.
Proof.
  intros Hsep. induction 1 as [|p rest Hp Hrest IH]; [by intros ?%elem_of_nil|].
  destruct rest as [|q rest]; [done|]. rewrite join_cons by done.
  rewrite !elem_of_app. tauto.
Qed.

Lemma break_lines_join (parts : list str) :
  Forall (λ p, Re.c_lt ∉ p) parts →
  break_lines (Py.join (lit "<br>") parts) = Py.join [Re.c_nl] parts.
Proof.
  induction 1 as [|p rest Hp Hrest IH]; [done|].
  destruct rest as [|q rest]; [by apply break_lines_free|].
  rewrite !join_cons by done.
  by rewrite break_lines_avoid, break_lines_match, IH.
Qed.

(** Plain parts joined by the line-break tag come out joined by newlines. *)
Lemma clean_html_join (parts : list str) :
  Forall plain parts →
  clean_html (Py.join (lit "<br>") parts) = Py.strip (Py.join [Re.c_nl] parts).
Proof.
  intros Hp. destruct (Py.join (lit "<br>") parts) as [|c r] eqn:E.
  { destruct parts as [|p [|q rest]]; [done|by simpl in E; subst|].
    rewrite join_cons in E by done. lit_compute. by destruct p. }
  rewrite <-E, clean_html_passes by (by rewrite E). f_equal.
  rewrite drop_sounds_free; last first.
  { apply join_free; [not_in_lit|].
    eapply Forall_impl; [done|]. by intros p (_ & _ & ?). }
  rewrite break_lines_join; last first.
  { eapply Forall_impl; [done|]. by intros p (? & _ & _). }
  rewrite drop_tags_free; last first.
  { apply join_free; [not_in_lit|].
    eapply Forall_impl; [done|]. by intros p (? & _ & _). }
  apply decode_entities_free.
  apply join_free; [not_in_lit|].
  eapply Forall_impl; [done|]. by intros p (_ & ? & _).
Qed.

(** X11: the plain back of a card is its note's fields after the first,
    blank ones left out, one per line, when these fields are plain text. *)
Theorem back_clean_lines (notes : list (Z * note)) (row : card_row) (nt : note)
    (f : str) (rest : list str) :
  Dict.get (card_nid row) notes = Some nt →
  nt_fields nt = f :: rest →
  Forall plain rest →
  backClean (make_card notes row)
  = Py.strip (Py.join [Re.c_nl] (filter (λ part, Py.strip part ≠ []) rest)).
Proof.
  intros Hnt Hf Hp. unfold make_card. rewrite Hnt, Hf. cbn [backClean].
  assert ((if bool_decide (1 < length (f :: rest)) then drop 1 (f :: rest) else [])
          = rest) as ->.
  { destruct rest; [done|]. rewrite bool_decide_true; [done|simpl; lia]. }
  apply clean_html_join. rewrite Forall_forall in Hp |- *.
  intros x [_ Hx]%list_elem_of_filter. by apply Hp.
Qed.

(** ** Display markup *)

Lemma m_src_Some s r : Re.m_src s = Some r → ∃ t, s = lit "src=" ++ Re.c_quote :: t.
Proof.
  unfold Re.m_src. destruct (Py.startswith _ s) eqn:E; [|done].
  intros _. apply startswith_app in E.
  exists (drop (length (lit "src=" ++ [Re.c_quote])) s).
  by rewrite E at 1.
Qed.

Lemma m_src_value t :
  Re.m_src (lit "src=" ++ Re.c_quote :: t)
  = if Py.startswith (lit "media/") t then None
    else if Py.startswith (lit "http") t then None
    else match Py.span_not Re.c_quote t with
         | ((_ :: _) as x, _ :: _) => Some (x, 5 + length x + 1)
         | _ => None
         end.
Proof. reflexivity. Qed.

Lemma rewrite_src_free s : Re.c_quote ∉ s → rewrite_src s = s.
Proof.
  intros Hq. apply sub_no_match. intros pre suf ->.
  destruct (Re.m_src suf) as [r|] eqn:E; [|done].
  apply m_src_Some in E as [t ->]. destruct Hq.
  rewrite !elem_of_app, elem_of_cons. auto.
Qed.

(** X6: markup in which every [src] attribute already points into the
    media folder or at an http address, and which holds no sound
    reference, is returned unchanged. *)
Theorem fix_media_paths_unchanged (s : str) :
  (∀ pre post, s = pre ++ lit "src=" ++ Re.c_quote :: post →
     Py.startswith (lit "media/") post = true ∨ Py.startswith (lit "http") post = true) →
  (∀ pre post, s ≠ pre ++ lit "[sound:" ++ post) →
  fix_media_paths s = s.
Proof.
  intros Hsrc Hsound. rewrite fix_media_paths_passes.
  assert (rewrite_src s = s) as ->.
  { apply sub_no_match. intros pre suf ->.
    destruct (Re.m_src suf) as [r|] eqn:E; [|done].
    destruct (m_src_Some _ _ E) as [t ->].
    rewrite m_src_value in E.
    by destruct (Hsrc pre t eq_refl) as [H|H]; rewrite H in E;
      [|destruct (Py.startswith (lit "media/") t)]. }
  apply sub_no_match. intros pre suf ->.
  destruct (Re.m_sound suf) as [r|] eqn:E; [|done].
  apply m_sound_Some in E as [t ->]. by destruct (Hsound pre t).
Qed.

(** X7: a sound reference becomes an audio element whose source is the
    referenced file in the media folder. *)
Theorem fix_media_paths_sound (a name b : str) :
  Re.c_quote ∉ a ++ name ++ b → Re.c_lbrack ∉ a ++ b →
  name ≠ [] → Re.c_rbrack ∉ name →
  fix_media_paths (a ++ lit "[sound:" ++ name ++ Re.c_rbrack :: b)
  = a ++ audio_element name ++ b.
Proof.
  intros Hq Hb Hn Hr. rewrite fix_media_paths_passes.
  rewrite rewrite_src_free by not_in_app. split_notin.
  by rewrite rewrite_sounds_avoid, rewrite_sounds_match, rewrite_sounds_free.
Qed.

Lemma startswith_lookup p s i c :
  Py.startswith p s = true → p !! i = Some c → s !! i = Some c.
Proof.
  intros ->%startswith_app Hi. by apply lookup_app_l_Some.
Qed.

Lemma startswith_stop (stop : char) p v b :
  stop ∉ p → Py.startswith p (v ++ stop :: b) = Py.startswith p v.
Proof.
  revert v. induction p as [|a p IH]; intros v; [done|].
  rewrite not_elem_of_cons. intros [Ha Hp]. destruct v as [|c v]; simpl.
  - assert ((a =? stop)%N = false) as -> by (by apply N.eqb_neq). done.
  - by rewrite IH.
Qed.

Lemma m_src_match v b :
  v ≠ [] → Re.c_quote ∉ v →
  Py.startswith (lit "media/") v = false → Py.startswith (lit "http") v = false →
  Re.m_src (lit "src=" ++ Re.c_quote :: v ++ Re.c_quote :: b)
  = Some (v, length (lit "src=" ++ Re.c_quote :: v ++ [Re.c_quote])).
Proof.
  intros Hv Hq Hm Hh. rewrite m_src_value. rewrite !startswith_stop, Hm, Hh, span_not_stop; try done.
  - destruct v as [|c v]; [done|]. rewrite !length_app. simpl.
    rewrite length_app. simpl. do 2 f_equal; lia.
  - not_in_lit.
  - not_in_lit.
Qed.

(** No [src] attribute starts inside quote-free text, also when one
    follows it. *)
Lemma m_src_straddle c suf rest :
  Re.c_quote ∉ c :: suf → Re.m_src (c :: suf ++ lit "src=" ++ rest) = None.
Proof.
  intros Hq. destruct (Re.m_src _) as [r|] eqn:E; [|done]. exfalso.
  unfold Re.m_src in E.
  destruct (Py.startswith _ (c :: suf ++ lit "src=" ++ rest)) eqn:Hs; [|done].
  apply (startswith_lookup _ _ 4 Re.c_quote) in Hs; [|done].
  change (c :: suf ++ lit "src=" ++ rest) with ((c :: suf) ++ lit "src=" ++ rest) in Hs.
  apply lookup_app_Some in Hs as [Hs|[Hlen Hs]].
  - apply Hq. by eapply list_elem_of_lookup_2.
  - simpl in Hlen, Hs. lit_compute.
    destruct (length suf) as [|[|[|[|n]]]]; simpl in Hs; try done; lia.
Qed.

(** X8: the value of a [src] attribute that does not start with the
    media folder or with http is prefixed with the media folder. *)
Theorem fix_media_paths_src (a v b : str) :
  Re.c_quote ∉ a ++ v ++ b → Re.c_lbrack ∉ a ++ v ++ b →
  v ≠ [] →
  Py.startswith (lit "media/") v = false → Py.startswith (lit "http") v = false →
  fix_media_paths (a ++ lit "src=" ++ Re.c_quote :: v ++ Re.c_quote :: b)
  = a ++ lit "src=" ++ Re.c_quote :: lit "media/" ++ v ++ Re.c_quote :: b.
Proof.
  intros Hq Hb Hv Hm Hh. rewrite fix_media_paths_passes.
  assert (rewrite_src (a ++ lit "src=" ++ Re.c_quote :: v ++ Re.c_quote :: b)
          = a ++ src_attribute v ++ b) as ->.
  { split_notin. unfold rewrite_src. rewrite sub_prefix; last first.
    { intros pre c suf ->. rewrite m_src_straddle; [done|]. by split_notin. }
    f_equal.
    assert (lit "src=" ++ Re.c_quote :: v ++ Re.c_quote :: b
            = (lit "src=" ++ Re.c_quote :: v ++ [Re.c_quote]) ++ b) as E.
    { by rewrite <-!(assoc_L (++)); simpl; rewrite <-!(assoc_L (++)). }
    rewrite E, (sub_match _ _ _ (src_attribute v)); [|lit_compute; done|].
    - f_equal. by apply rewrite_src_free.
    - by rewrite <-E, m_src_match. }
  rewrite rewrite_sounds_free.
  - unfold src_attribute. by rewrite <-!(assoc_L (++)).
  - unfold src_attribute. not_in_app.
Qed.

(** ** Sanitizer: the length of the text *)

Section length_facts.
Implicit Types (s t x : str) (m : str → option (str * nat)).

(** A scan whose replacements are no longer than what they replace
    lengthens nothing. *)
Lemma sub_scan_shorter m skip s :
  (∀ t repl n, m t = Some (repl, n) → length repl ≤ n ≤ length t) →
  skip ≤ length s → length (Py.sub_scan m skip s) ≤ length s - skip.
Proof.
  intros Hm. revert skip. induction s as [|c s IH]; intros skip Hskip; simpl; [lia|].
  destruct skip as [|k].
  - destruct (m (c :: s)) as [[repl n]|] eqn:E.
    + destruct (Hm _ _ _ E) as [H1 H2]. simpl in H2. rewrite length_app.
      specialize (IH (pred n)). lia.
    + specialize (IH 0). simpl. lia.
  - simpl in Hskip. specialize (IH k). lia.
Qed.

Lemma sub_shorter m s :
  (∀ t repl n, m t = Some (repl, n) → length repl ≤ n ≤ length t) →
  length (Py.sub m s) ≤ length s.
Proof.
  intros Hm. pose proof (sub_scan_shorter m 0 s Hm). unfold Py.sub. lia.
Qed.

(** A scan whose replacements are no shorter than what they replace
    shortens nothing. *)
Lemma sub_scan_longer m skip s :
  (∀ t repl n, m t = Some (repl, n) → 1 ≤ n ≤ length repl) →
  length s - skip ≤ length (Py.sub_scan m skip s).
Proof.
  intros Hm. revert skip. induction s as [|c s IH]; intros skip; simpl; [lia|].
  destruct skip as [|k].
  - destruct (m (c :: s)) as [[repl n]|] eqn:E.
    + pose proof (Hm _ _ _ E). rewrite length_app. specialize (IH (pred n)). lia.
    + specialize (IH 0). simpl. lia.
  - apply IH.
Qed.

Lemma span_not_length stop s x r :
  Py.span_not stop s = (x, r) → length s = length x + length r.
Proof.
  revert x r. induction s as [|c s IH]; intros x r; simpl; [by intros [= <- <-]|].
  destruct (c =? stop)%N; [by intros [= <- <-]|].
  destruct (Py.span_not stop s) as [x' r']. intros [= <- <-]. simpl.
  by rewrite (IH x' r').
Qed.

Lemma lstrip_length s : length (Py.lstrip s) ≤ length s.
Proof.
  induction s as [|c s IH]; simpl; [done|]. destruct (Py.isspace c); simpl; lia.
Qed.

Lemma strip_length s : length (Py.strip s) ≤ length s.
Proof.
  unfold Py.strip, Py.rstrip. rewrite length_reverse.
  pose proof (lstrip_length (reverse (Py.lstrip s))) as H1.
  pose proof (lstrip_length s) as H2. rewrite length_reverse in H1. lia.
Qed.

Lemma m_sound_length s x n :
  Re.m_sound s = Some (x, n) → 1 ≤ n ≤ length s.
Proof.
  unfold Re.m_sound. destruct (Py.startswith _ s) eqn:Hs; [|done].
  apply startswith_app in Hs.
  destruct (Py.span_not Re.c_rbrack (drop 7 s)) as [[|c y] [|d r]] eqn:E; try done.
  intros [= <- <-]. apply span_not_length in E.
  rewrite Hs, length_app. change (length (lit "[sound:")) with 7 in *.
  rewrite E. simpl. lia.
Qed.

Lemma m_br_length s n : Re.m_br s = Some n → 1 ≤ n ≤ length s.
Proof.
  destruct s as [|a [|b [|c rest]]]; simpl; try done.
  destruct (_ && _ && _); [|done].
  pose proof (lstrip_length rest) as Hl.
  destruct (Py.lstrip rest) as [|d [|e rest']] eqn:E; [done| |].
  - destruct (d =? Re.c_gt)%N; [intros [= <-]; simpl in *; lia|].
    by destruct (d =? Re.c_slash)%N.
  - destruct (d =? Re.c_gt)%N; [intros [= <-]; simpl in *; lia|].
    destruct (d =? Re.c_slash)%N; [|done].
    destruct (e =? Re.c_gt)%N; [|done]. intros [= <-]. simpl in *. lia.
Qed.

Lemma m_tag_length s n : Re.m_tag s = Some n → 1 ≤ n ≤ length s.
Proof.
  destruct s as [|a s]; simpl; [done|]. destruct (a =? Re.c_lt)%N; [|done].
  destruct (Py.span_not Re.c_gt s) as [[|c y] [|d r]] eqn:E; try done.
  intros [= <-]. apply span_not_length in E. rewrite E. simpl. lia.
Qed.

Lemma m_src_length s x n : Re.m_src s = Some (x, n) → n = 6 + length x.
Proof.
  unfold Re.m_src. destruct (Py.startswith _ s); [|done].
  destruct (Py.startswith _ (drop 5 s)); [done|].
  destruct (Py.startswith _ (drop 5 s)); [done|].
  destruct (Py.span_not Re.c_quote (drop 5 s)) as [[|c y] [|d r]]; try done.
  intros [= <- <-]. simpl. lia.
Qed.

Lemma replace_shorter old new s :
  length new ≤ length old → length (Py.replace old new s) ≤ length s.
Proof.
  intros Hlen. apply sub_shorter. intros t repl n.
  destruct (Py.startswith old t) eqn:E; [|done]. intros [= <- <-].
  apply startswith_app in E. split; [done|]. rewrite E, length_app. lia.
Qed.

Lemma drop_sounds_shorter s : length (drop_sounds s) ≤ length s.
Proof.
  apply sub_shorter. intros t repl n.
  destruct (Re.m_sound t) as [[x k]|] eqn:E; [|done]. intros [= <- <-].
  apply m_sound_length in E. simpl. lia.
Qed.

Lemma break_lines_shorter s : length (break_lines s) ≤ length s.
Proof.
  apply sub_shorter. intros t repl n.
  destruct (Re.m_br t) as [k|] eqn:E; [|done]. intros [= <- <-].
  apply m_br_length in E. simpl. lia.
Qed.

Lemma drop_tags_shorter s : length (drop_tags s) ≤ length s.
Proof.
  apply sub_shorter. intros t repl n.
  destruct (Re.m_tag t) as [k|] eqn:E; [|done]. intros [= <- <-].
  apply m_tag_length in E. simpl. lia.
Qed.

Lemma decode_entities_shorter s : length (decode_entities s) ≤ length s.
Proof.
  unfold decode_entities.
  repeat (etrans; [apply replace_shorter; vm_compute; lia|]). done.
Qed.
End length_facts.

(** X20: [clean_html] never returns a text longer than the one it is
    given: every pass removes or shortens. *)
Theorem clean_html_no_longer (s : str) : length (clean_html s) ≤ length s.
Proof.
  destruct s as [|c s]; [done|]. rewrite clean_html_passes by done.
  etrans; [apply strip_length|]. etrans; [apply decode_entities_shorter|].
  etrans; [apply drop_tags_shorter|]. etrans; [apply break_lines_shorter|].
  apply drop_sounds_shorter.
Qed.

(** X21: [fix_media_paths] never returns a text shorter than the one it
    is given: both passes only add. *)
Theorem fix_media_paths_no_shorter (s : str) : length s ≤ length (fix_media_paths s).
Proof.
  rewrite fix_media_paths_passes. etrans; [|apply (sub_scan_longer _ 0)].
  - rewrite Nat.sub_0_r. etrans; [|apply (sub_scan_longer _ 0)]; [by rewrite Nat.sub_0_r|].
    intros t repl n. destruct (Re.m_src t) as [[x k]|] eqn:E; [|done].
    intros [= <- <-]. apply m_src_length in E. unfold src_attribute.
    rewrite !length_app. simpl. lia.
  - intros t repl n. destruct (Re.m_sound t) as [[x k]|] eqn:E; [|done].
    intros [= <- <-]. unfold audio_element. rewrite !length_app. simpl.
    unfold Re.m_sound in E. destruct (Py.startswith _ t); [|done].
    destruct (Py.span_not Re.c_rbrack (drop 7 t)) as [[|c y] [|d r]]; try done.
    injection E as <- <-. simpl. lia.
Qed.

(** ** Collection parser: the order of the cards *)

Section card_order.
Variable notes : list (Z * note).

Lemma collect_cards_values rows (d : list (Z * Card)) :
  Dict.values (foldl (collect_card notes) d rows)
  = Dict.values d ++ (make_card notes <$> first_rows (Dict.keys d) rows).
Proof.
  revert d. induction rows as [|r rows IH]; intros d; simpl; [by rewrite app_nil_r|].
  unfold collect_card at 2. destruct (Dict.get (card_nid r) d) as [c|] eqn:Hget.
  - rewrite decide_True; [apply IH|]. apply dec_stable. intros Hn.
    apply get_None in Hn. congruence.
  - apply get_None in Hget. rewrite decide_False by done.
    rewrite IH, set_absent by done. unfold Dict.values, Dict.keys.
    rewrite !fmap_app. simpl. by rewrite <-(assoc_L (++)).
Qed.
End card_order.

Section parser_more.
Variable lower : str → str.
Variable json_loads : str → result json.

(** X9: the cards come in the order of the rows of [cards], one for
    every row whose note has no earlier row. *)
Theorem cards_in_row_order (db : database) (out : output) :
  parse_anki_collection lower json_loads db = Ok out →
  cards out = make_card (read_notes (notes_table db)) <$> first_rows [] (cards_by_ord db).
Proof.
  intros (dks & _ & _ & ->)%parse_inv. unfold collect_cards.
  by rewrite collect_cards_values.
Qed.

(** X12: the decks the parser keeps are the records of the deck table
    whose name does not lower-case to a default label, each under its
    key and with its key as identifier. *)
Theorem parse_decks_exact (db : database) (its : list (str * json))
    (dks : list (str * deck)) (k : str) (dk : deck) :
  config_decks json_loads db = Ok its →
  parse_decks lower json_loads db = Ok dks →
  (k, dk) ∈ dks
  ↔ ∃ info, (k, info) ∈ its ∧ deck_name info = Ok (d_name dk)
      ∧ (lower (d_name dk) ∉ default_labels) ∧ d_id dk = k.
Proof.
  intros Hits (its' & Hits' & Hread)%parse_decks_inv.
  assert (its' = its) as -> by congruence. split.
  - intros Hin.
    by destruct (read_decks_kept _ _ _ _ _ _ Hread Hin) as [?%elem_of_nil|?].
  - intros (info & Hin & Hname & Hdef & Hid).
    pose proof (read_decks_keeps _ _ _ _ _ _ _ Hread (config_decks_NoDup _ _ _ Hits)
                  Hin Hname Hdef) as Hk.
    destruct dk as [i n]. simpl in *. by subst.
Qed.





End parser_more.

(** ** Archive reader: what is copied *)

Section archive_more.
Context {world : Type} `{!Platform world}.
Variable json_loads : str → result json.

Lemma copy_media_count zip_ref media_dir its n w m w' :
  (∀ p d w0, (write_binary p d w0).1 ≠ Raise KeyError) →
  copy_media zip_ref media_dir its n w = (Ok m, w') →
  m = n + length (in_archive zip_ref its).
Proof.
  intros Hwrite. revert n w. induction its as [|[num_name original_name] its IH];
    intros n w; simpl.
  { intros [= <-]. unfold in_archive. simpl. lia. }
  unfold zip_read, in_archive.
  destruct (Dict.get num_name zip_ref) as [data|] eqn:Hget.
  - rewrite filter_cons_True; last first.
    { simpl. apply dec_stable. intros Hn. apply get_None in Hn. congruence. }
    destruct original_name as [| | |name| |]; try done.
    pose proof (Hwrite (path_join media_dir name) data w) as Hw.
    destruct (write_binary _ data w) as [[[]|e] w1]; simpl in Hw.
    + intros ->%IH. unfold in_archive. simpl. lia.
    + by destruct e.
  - rewrite filter_cons_False by (simpl; by apply get_None).
    apply IH.
Qed.

(** X14: where writing a file never raises [KeyError], the count
    [extract_media] returns is the number of entries of the media map
    whose numbered member is in the archive, and nothing is printed. *)
Theorem extract_media_count (colpkg_path output_dir : str) (w w1 w' : world)
    (zip_ref : archive) (pairs : list (str * json)) (m : nat) (out : list str) :
  (∀ p d w0, (write_binary p d w0).1 ≠ Raise KeyError) →
  makedirs_exist_ok (path_join output_dir (lit "media")) w = (Ok (), w1) →
  zip_open colpkg_path w1 = Ok zip_ref →
  read_media_map json_loads zip_ref = Ok (JObj pairs) →
  extract_media json_loads colpkg_path output_dir w = (Ok m, w', out) →
  m = length (in_archive zip_ref (Dict.of_pairs pairs)) ∧ out = [].
Proof.
  intros Hwrite Hmk Hzip Hmap. unfold extract_media. rewrite Hmk, Hzip, Hmap.
  destruct (copy_media _ _ _ 0 w1) as [r w2] eqn:Hcopy. intros [= -> -> <-].
  split; [|done]. by apply (copy_media_count _ _ _ _ _ _ _ Hwrite) in Hcopy.
Qed.

(** X15: an archive without the member [media], or whose member is
    text that is not JSON, gives the notice and the count 0, and
    nothing is written after the directory is made. *)
Theorem extract_media_without_map (colpkg_path output_dir : str) (w w1 : world)
    (zip_ref : archive) :
  makedirs_exist_ok (path_join output_dir (lit "media")) w = (Ok (), w1) →
  zip_open colpkg_path w1 = Ok zip_ref →
  (Dict.get (lit "media") zip_ref = None
   ∨ ∃ data text, Dict.get (lit "media") zip_ref = Some data
       ∧ utf8_decode data = Ok text ∧ json_loads text = Raise JSONDecodeError) →
  extract_media json_loads colpkg_path output_dir w = (Ok 0, w1, [no_media_mapping]).
Proof.
  intros Hmk Hzip [Hget|(data & text & Hget & Hdec & Hjson)].
  - by eapply extract_media_no_entry.
  - by eapply extract_media_not_json.
Qed.
End archive_more.

(** ** Collection parser: from a note to its card *)

Section note_lookup.
Implicit Types (rows : list note_row) (d : list (Z * note)) (r : note_row).

Local Abbreviation read_note := (λ notes r,
  let field_list :=
    match note_flds r with
    | Some ((_ :: _) as fields) => Py.split [unit_separator] fields
    | _ => []
    end in
  Dict.set (note_id r)
    {| nt_id := note_id r; nt_model_id := note_mid r; nt_fields := field_list |} notes).

Lemma read_notes_other rows d n :
  n ∉ note_id <$> rows → Dict.get n (foldl read_note d rows) = Dict.get n d.
Proof.
  revert d. induction rows as [|r rows IH]; intros d; [done|]. csimpl.
  rewrite not_elem_of_cons. intros [Hne Hn]. rewrite IH by done.
  by rewrite get_set, decide_False.
Qed.

(** A note row whose identifier is its own is found under it. *)
Lemma read_notes_get rows r flds :
  NoDup (note_id <$> rows) → r ∈ rows → note_flds r = Some flds → flds ≠ [] →
  ∃ nt, Dict.get (note_id r) (read_notes rows) = Some nt
        ∧ nt_fields nt = Py.split [unit_separator] flds.
Proof.
  unfold read_notes. generalize (@nil (Z * note)).
  induction rows as [|r0 rows IH]; intros d; [by intros _ ?%elem_of_nil|]. csimpl.
  intros [Hfresh Hnd]%NoDup_cons [->|Hin]%elem_of_cons Hflds Hne.
  - rewrite read_notes_other, get_set, decide_True by done.
    eexists. split; [done|]. simpl. rewrite Hflds. by destruct flds.
  - by apply IH.
Qed.
End note_lookup.

(** X10: the card of a note that is in [notes]: the first of the parts
    of the note's field text between unit separators is the front, the
    others, blank ones left out and joined by line-break tags, are the
    back, each as display markup and as plain text. *)
Theorem card_of_note (rows : list note_row) (r : note_row) (c : card_row)
    (flds f0 : str) (rest : list str) :
  NoDup (note_id <$> rows) → r ∈ rows → card_nid c = note_id r →
  note_flds r = Some flds → flds ≠ [] →
  Py.split [unit_separator] flds = f0 :: rest →
  let card := make_card (read_notes rows) c in
  let back_text := Py.join (lit "<br>") (filter (λ part, Py.strip part ≠ []) rest) in
  front card = fix_media_paths f0 ∧ frontClean card = clean_html f0
  ∧ back card = fix_media_paths back_text ∧ backClean card = clean_html back_text.
Proof.
  intros Hnd Hin Hc Hflds Hne Hsplit.
  destruct (read_notes_get rows r flds Hnd Hin Hflds Hne) as (nt & Hget & Hfields).
  unfold make_card. rewrite Hc, Hget, Hfields, Hsplit. cbn zeta.
  assert ((if bool_decide (1 < length (f0 :: rest)) then drop 1 (f0 :: rest) else [])
          = rest) as ->.
  { destruct rest; [done|]. rewrite bool_decide_true; [done|simpl; lia]. }
  done.
Qed.

(** ** Deck tree builder: the order of the decks *)

Section order_facts.
Implicit Types (a b c : str).

Lemma str_le_cons x a y b :
  str_le (x :: a) (y :: b) = true ↔ (x < y)%N ∨ (x = y ∧ str_le a b = true).
Proof.
  simpl. destruct (N.ltb_spec x y) as [Hlt|Hge]; [by split; [left|]|].
  destruct (N.eqb_spec x y) as [->|Hne].
  - split; [by right|]. intros [?|[_ ?]]; [lia|done].
  - split; [done|]. intros [?|[? _]]; [lia|done].
Qed.

Lemma str_le_total a b : str_le a b = false → str_le b a = true.
Proof.
  revert b. induction a as [|x a IH]; intros [|y b]; try done.
  intros H. apply str_le_cons.
  destruct (N.lt_total y x) as [?|[->|Hlt]]; [by left| |].
  - right. split; [done|]. apply IH. simpl in H. by rewrite N.ltb_irrefl, N.eqb_refl in H.
  - assert (str_le (x :: a) (y :: b) = true) as E; [|congruence].
    apply str_le_cons. by left.
Qed.

Lemma str_le_trans a b c : str_le a b = true → str_le b c = true → str_le a c = true.
Proof.
  revert b c. induction a as [|x a IH]; intros [|y b] [|z c]; try done.
  rewrite !str_le_cons. intros [?|[-> ?]] [?|[-> ?]]; [left; lia|by left|by left|].
  right. split; [done|]. by eapply IH.
Qed.

(** A string is before its proper extensions, never after. *)
Lemma str_le_extension a x b : str_le (a ++ x :: b) a = false.
Proof.
  induction a as [|y a IH]; [done|]. simpl. by rewrite N.ltb_irrefl, N.eqb_refl.
Qed.

Lemma insert_by_name_sorted d l :
  StronglySorted name_le l → StronglySorted name_le (insert_by_name d l).
Proof.
  induction 1 as [|e l Hl IH He]; simpl; [by repeat constructor|].
  destruct (str_le (d_name d) (d_name e)) eqn:E.
  - constructor; [by constructor|]. constructor; [done|].
    eapply Forall_impl; [done|]. intros x Hx. unfold name_le in *. by eapply str_le_trans.
  - constructor; [done|]. apply Forall_forall. intros x [->|Hx]%insert_by_name_elem.
    + by apply str_le_total.
    + by eapply Forall_forall in He.
Qed.

Lemma sorted_by_name_sorted l : StronglySorted name_le (sorted_by_name l).
Proof.
  induction l as [|d l IH]; [constructor|]. by apply insert_by_name_sorted.
Qed.
End order_facts.

(** ** Paths and names *)

Lemma split_scan_skip sep a cur s :
  Py.split_scan sep (length a) cur (a ++ s) = Py.split_scan sep 0 cur s.
Proof. induction a as [|c a IH]; [done|]. exact IH. Qed.

Lemma join_split_scan x sep n s cur :
  length s ≤ n →
  Py.join (x :: sep) (Py.split_scan (x :: sep) 0 cur s) = reverse cur ++ s.
Proof.
  revert s cur. induction n as [|n IH]; intros [|c t] cur Hn; simpl in Hn;
    try (by simpl; rewrite app_nil_r); [lia|].
  cbn [Py.split_scan]. destruct (Py.startswith (x :: sep) (c :: t)) eqn:Hs.
  - pose proof (startswith_app _ _ Hs) as E. simpl in E. injection E as -> E.
    set (t' := drop (length sep) t) in E. clearbody t'. subst t.
    cbn [length pred]. rewrite split_scan_skip.
    destruct (split_scan_head (x :: sep) 0 [] t') as (y & rest & Hy).
    rewrite join_cons by (by rewrite Hy).
    rewrite IH; [done|]. rewrite length_app in Hn. lia.
  - rewrite IH by lia. by rewrite reverse_cons, <-(assoc_L (++)).
Qed.

(** Splitting and joining again gives the string back. *)
Lemma join_split sep s : sep ≠ [] → Py.join sep (Py.split sep s) = s.
Proof.
  destruct sep as [|x sep]; [done|]. intros _. unfold Py.split.
  by rewrite (join_split_scan x sep (length s)).
Qed.

Section name_paths.
Implicit Types (cp part name : str) (parts : list str).

Lemma join_child cp part parts :
  cp ≠ [] →
  Py.join (lit "::") (child_path cp part :: parts) = Py.join (lit "::") (cp :: part :: parts).
Proof.
  intros Hcp. destruct cp as [|c cp]; [done|]. cbn [child_path].
  destruct parts as [|q parts]; [done|].
  rewrite !join_cons by done. by rewrite <-!(assoc_L (++)).
Qed.

Lemma child_path_nonempty cp part : cp ≠ [] → child_path cp part ≠ [].
Proof. by destruct cp. Qed.

(** From a non-empty path on, every path of the loop is the whole
    joined name or is followed in it by a separator. *)
Lemma paths_from_prefix cp parts p :
  cp ≠ [] → p ∈ paths_from cp parts →
  p = Py.join (lit "::") (cp :: parts)
  ∨ ∃ r, Py.join (lit "::") (cp :: parts) = p ++ lit "::" ++ r.
Proof.
  revert cp. induction parts as [|part parts IH]; intros cp Hcp; [by intros ?%elem_of_nil|].
  cbn [paths_from]. rewrite <-join_child by done.
  intros [->|Hp]%elem_of_cons.
  - destruct parts as [|q parts]; [by left|]. right. eexists. by rewrite join_cons.
  - apply IH; [by apply child_path_nonempty|done].
Qed.

Lemma paths_from_last cp parts :
  cp ≠ [] → parts ≠ [] → Py.join (lit "::") (cp :: parts) ∈ paths_from cp parts.
Proof.
  revert cp. induction parts as [|part parts IH]; intros cp Hcp Hparts; [done|].
  cbn [paths_from]. rewrite <-join_child by done.
  destruct parts as [|q parts]; [left|]. right.
  apply IH; [by apply child_path_nonempty|done].
Qed.

(** The paths of a name that does not begin with the separator: the
    name is one of them, and the others are followed in the name by a
    separator. *)
Lemma name_paths name :
  Py.startswith (lit "::") name = false →
  name ∈ paths_from [] (Py.split (lit "::") name)
  ∧ ∀ p, p ∈ paths_from [] (Py.split (lit "::") name) →
      p = name ∨ ∃ r, name = p ++ lit "::" ++ r.
Proof.
  intros Hname. pose proof (split_first_nonempty _ _ Hname) as Hfirst.
  pose proof (join_split (lit "::") name ltac:(done)) as Hjoin.
  destruct (split_scan_head (lit "::") 0 [] name) as (p0 & rest & Hsplit).
  fold (Py.split (lit "::") name) in Hsplit. rewrite Hsplit in *.
  change (reverse [] ++ p0) with p0 in *. destruct rest as [|p1 rest].
  - simpl in Hjoin. subst. split; [left|]. intros p ->%list_elem_of_singleton. by left.
  - cbn [paths_from child_path]. rewrite <-Hjoin. split.
    + right. by apply paths_from_last.
    + intros p [->|Hp]%elem_of_cons; [|by apply paths_from_prefix].
      right. eexists. by rewrite join_cons.
Qed.
End name_paths.

(** ** Deck tree builder: where a node comes from *)

Section node_origin.
Variable dks : list deck.
Variable Q : node → Prop.
Hypothesis Q_label : ∀ nd nd', same_label nd nd' → Q nd' → Q nd.

Lemma append_child_label h nd : same_label (append_child h nd) nd.
Proof. done. Qed.

(** What holds of the old nodes and of every node the loop may create
    holds of all nodes when the inner loop is left. *)
Lemma visit_parts_nodes dk parts st cp parent :
  tree_inv dks st → dk ∈ dks → linked st cp parent →
  (∀ h nd, heap st !! h = Some nd → Q nd) →
  (∀ cp' part, cp' ∈ paths_from cp parts →
     (∀ h nd, heap st !! h = Some nd → n_fullPath nd ≠ cp') →
     Q (new_node dk cp' part)) →
  ∀ h nd, heap (foldl (visit_part dk) (st, cp, parent) parts).1.1 !! h = Some nd → Q nd.
Proof.
  revert st cp parent. induction parts as [|part parts IH];
    intros st cp parent Hinv Hdk Hlink Hold Hnew; [done|].
  cbn [foldl].
  pose proof (visit_part_inv dks st cp parent dk part Hinv Hdk Hlink) as Hstep.
  destruct (visit_part dk (st, cp, parent) part) as [[st1 cp1] parent1] eqn:E.
  destruct Hstep as (Hinv1 & Hg1 & -> & _ & Hlink1).
  apply IH; try done.
  - intros h nd Hh. unfold visit_part in E.
    destruct (Dict.get (child_path cp part) (deck_map st)) as [q|] eqn:Hget.
    + injection E as <- _. by eapply Hold.
    + injection E as <- _.
      assert (Q (new_node dk (child_path cp part) part)) as Hq.
      { apply Hnew; [left|]. intros h' nd' Hh' Hp.
        assert (Dict.get (child_path cp part) (deck_map st) = Some h') as E'.
        { apply (inv_map _ _ Hinv). by exists nd'. }
        congruence. }
      apply attach_lookup in Hh as [(_ & _ & ->)|[(_ & _ & ->)|(nd0 & Hh0 & Hl & _)]].
      * done.
      * by eapply Q_label; [apply append_child_label|].
      * eapply Q_label; [done|]. by eapply Hold.
  - intros cp' part' Hcp' Habs. apply Hnew; [by right|].
    intros h nd Hh Hp. destruct (Hg1 h nd Hh) as (nd' & Hh' & (_ & _ & Ep)).
    apply (Habs h nd' Hh'). congruence.
Qed.

Lemma visit_decks_nodes (l : list deck) st :
  tree_inv dks st → (∀ dk, dk ∈ l → dk ∈ dks) →
  (∀ h nd, heap st !! h = Some nd → Q nd) →
  (∀ l1 dk l2 cp' part, l = l1 ++ dk :: l2 →
     cp' ∈ paths_from [] (Py.split (lit "::") (d_name dk)) →
     (∀ h nd, heap (foldl visit_deck st l1) !! h = Some nd → n_fullPath nd ≠ cp') →
     Q (new_node dk cp' part)) →
  ∀ h nd, heap (foldl visit_deck st l) !! h = Some nd → Q nd.
Proof.
  revert st. induction l as [|dk l IH]; intros st Hinv Hl Hold Hnew; [done|].
  cbn [foldl]. destruct (visit_deck_inv dks st dk Hinv) as [Hinv1 Hg1]; [apply Hl; left|].
  apply IH; try done.
  - intros ??. apply Hl. by right.
  - apply visit_parts_nodes; try done; [apply Hl; left|].
    intros cp' part Hcp' Habs. by apply (Hnew [] dk l).
  - intros l1 dk' l2 cp' part -> Hcp' Habs. by apply (Hnew (dk :: l1) dk' l2).
Qed.
End node_origin.

Section deck_nodes.
Variable decks : list (str * deck).
Local Abbreviation dks := (sorted_by_name (Dict.values decks)).
Local Abbreviation st := (build_state decks).

Lemma dks_elem dk : dk ∈ dks ↔ ∃ k, (k, dk) ∈ decks.
Proof.
  rewrite sorted_by_name_elem. unfold Dict.values. rewrite list_elem_of_fmap. split.
  - intros ([k dk'] & -> & Hin). by exists k.
  - intros [k Hin]. by exists (k, dk).
Qed.

(** Every node is on the way to some deck. *)
Lemma build_deck_path h nd : heap st !! h = Some nd → deck_path dks nd.
Proof.
  unfold build_state. apply (visit_decks_nodes dks (deck_path dks)); try done.
  - intros nd1 nd2 (_ & _ & E) (dk & ? & ?). exists dk. by rewrite E.
  - apply tree_inv_empty.
  - intros l1 dk l2 cp' part E Hcp' _. exists dk. split; [|done].
    rewrite E. apply elem_of_app. right. left.
Qed.

(** Where no name begins with the separator, a node whose path names a
    deck was made for a deck of that name. *)
Lemma build_deck_id_kept h nd :
  (∀ k dk, (k, dk) ∈ decks → Py.startswith (lit "::") (d_name dk) = false) →
  heap st !! h = Some nd → deck_id_kept dks nd.
Proof.
  intros Hnames. unfold build_state.
  apply (visit_decks_nodes dks (deck_id_kept dks)); try done.
  - intros nd1 nd2 (Ei & _ & Ep) Hk. unfold deck_id_kept. rewrite Ei, Ep. apply Hk.
  - apply tree_inv_empty.
  - intros l1 dk l2 cp' part E Hcp' Habs (dk' & Hdk' & Hn'). simpl in Hn'.
    assert (dk ∈ dks) as Hdk by (rewrite E; apply elem_of_app; right; left).
    destruct (decide (cp' = d_name dk)) as [->|Hne].
    { exists dk. split_and!; try done. simpl. by rewrite decide_True. }
    exfalso.
    destruct (proj1 (dks_elem dk) Hdk) as [k Hk].
    destruct (proj1 (dks_elem dk') Hdk') as [k' Hk'].
    destruct (proj2 (name_paths _ (Hnames k dk Hk)) cp' Hcp') as [?|[r Hr]]; [done|].
    pose proof (sorted_by_name_sorted (Dict.values decks)) as Hsorted.
    rewrite E in Hdk', Hsorted.
    apply elem_of_app in Hdk' as [Hpre|Hpost].
    + destruct (visit_decks_paths dks l1 {| heap := []; deck_map := []; root_nodes := [] |}
                  dk' cp' (tree_inv_empty dks)) as (h' & nd' & Hh' & Hp').
      * intros d Hd. rewrite E. apply elem_of_app. by left.
      * done.
      * rewrite <-Hn'. apply name_paths. by eapply Hnames.
      * by apply (Habs h' nd' Hh').
    + apply elem_of_cons in Hpost as [->|Hpost]; [done|].
      apply StronglySorted_app_1_r, StronglySorted_inv in Hsorted as [_ Hall].
      rewrite Forall_forall in Hall. specialize (Hall dk' Hpost). unfold name_le in Hall.
      rewrite Hn', Hr in Hall. change (lit "::" ++ r) with (58%N :: 58%N :: r) in Hall.
      by rewrite str_le_extension in Hall.
Qed.

(** X16: the paths of the nodes of the returned tree are the paths the
    inner loop goes through for the decks, each in one node. *)
Theorem tree_paths_exact :
  NoDup (node_fullPath <$> tree_nodes (build_deck_tree decks))
  ∧ ∀ path, path ∈ node_fullPath <$> tree_nodes (build_deck_tree decks)
      ↔ ∃ k dk, (k, dk) ∈ decks
          ∧ path ∈ paths_from [] (Py.split (lit "::") (d_name dk)).
Proof.
  split; [apply tree_fullPath_NoDup|]. intros path. split.
  - intros (t & -> & (h & nd & Hh & (_ & _ & ->))%tree_nodes_sound)%list_elem_of_fmap.
    destruct (build_deck_path h nd Hh) as (dk & [k Hk]%dks_elem & Hp). by exists k, dk.
  - intros (k & dk & Hk & Hp).
    destruct (tree_path_nodes decks k dk path Hk Hp) as (t & Ht & <-).
    by apply list_elem_of_fmap_2.
Qed.

(** X17: when no deck name begins with the separator, the path of
    every node is the names from its root down to it, joined by the
    separator. *)
Theorem tree_paths_are_joined_names :
  (∀ k dk, (k, dk) ∈ decks → Py.startswith (lit "::") (d_name dk) = false) →
  forallb (joined_paths []) (build_deck_tree decks) = true.
Proof. apply tree_paths_joined. Qed.

(** X18: when no deck name begins with the separator, every deck has
    its node in the returned tree: the node whose path is the deck's
    name, carrying the identifier of a deck of that name. *)
Theorem deck_node_keeps_id (k : str) (dk : deck) :
  (∀ k dk, (k, dk) ∈ decks → Py.startswith (lit "::") (d_name dk) = false) →
  (k, dk) ∈ decks →
  ∃ t, t ∈ tree_nodes (build_deck_tree decks) ∧ node_fullPath t = d_name dk
       ∧ ∃ k' dk', (k', dk') ∈ decks ∧ d_name dk' = d_name dk ∧ node_id t = d_id dk'.
Proof.
  intros Hnames Hk.
  destruct (tree_path_nodes decks k dk (d_name dk) Hk) as (t & Ht & Hp).
  { apply name_paths. by eapply Hnames. }
  exists t. split_and!; try done.
  destruct (tree_nodes_sound decks t Ht) as (h & nd & Hh & (Ei & _ & Ep)).
  destruct (build_deck_id_kept h nd Hnames Hh) as (dk' & [k' Hk']%dks_elem & Hn' & Hi').
  { exists dk. split; [apply dks_elem; by exists k|congruence]. }
  exists k', dk'. split_and!; congruence.
Qed.

(** X19: when no deck name begins with the separator, a node carries
    the identifier of a deck named by its path if there is one, and
    the synthesized identifier of its path otherwise. *)
Theorem tree_ids_exact (t : DeckNode) :
  (∀ k dk, (k, dk) ∈ decks → Py.startswith (lit "::") (d_name dk) = false) →
  t ∈ tree_nodes (build_deck_tree decks) →
  (∃ k dk, (k, dk) ∈ decks ∧ d_name dk = node_fullPath t ∧ node_id t = d_id dk)
  ∨ ((∀ k dk, (k, dk) ∈ decks → d_name dk ≠ node_fullPath t)
     ∧ node_id t = lit "virtual_" ++ node_fullPath t).
Proof.
  intros Hnames Ht.
  destruct (tree_nodes_sound decks t Ht) as (h & nd & Hh & (Ei & _ & Ep)).
  destruct (decide (Exists (λ e, d_name e.2 = node_fullPath t) decks)) as [Hex|Hno].
  - left. apply Exists_exists in Hex as ([k dk] & Hk & Hn). simpl in Hn.
    destruct (build_deck_id_kept h nd Hnames Hh) as (dk' & [k' Hk']%dks_elem & Hn' & Hi').
    { exists dk. split; [apply dks_elem; by exists k|congruence]. }
    exists k', dk'. split_and!; congruence.
  - assert (∀ k dk, (k, dk) ∈ decks → d_name dk ≠ node_fullPath t) as Hfree.
    { intros k dk Hk Hn. apply Hno, Exists_exists. by exists (k, dk). }
    right. split; [done|].
    destruct (tree_node_id decks t Ht) as [?|(k & dk & Hk & _ & Hn)]; [done|].
    by destruct (Hfree k dk Hk).
Qed.
End deck_nodes.

(** ** Deck tree builder: the order of the deck table *)

Lemma str_le_antisym (a b : str) : str_le a b = true → str_le b a = true → a = b.
Proof.
  revert b. induction a as [|x a IH]; intros [|y b]; try done.
  rewrite !str_le_cons. intros [?|[-> ?]] [?|[? ?]]; try lia.
  f_equal. by apply IH.
Qed.

Lemma insert_by_name_perm d l : insert_by_name d l ≡ₚ d :: l.
Proof.
  induction l as [|e l IH]; simpl; [done|].
  destruct (str_le _ _); [done|]. by rewrite IH, Permutation_swap.
Qed.

Lemma sorted_by_name_perm l : sorted_by_name l ≡ₚ l.
Proof.
  induction l as [|d l IH]; simpl; [done|]. by rewrite insert_by_name_perm, IH.
Qed.

Lemma NoDup_fmap_inj {A B} (f : A → B) (l : list A) x y :
  NoDup (f <$> l) → x ∈ l → y ∈ l → f x = f y → x = y.
Proof.
  induction l as [|a l IH]; csimpl; [by intros _ ?%elem_of_nil|].
  intros [Hfresh Hnd]%NoDup_cons [->|Hx]%elem_of_cons [->|Hy]%elem_of_cons E; try done.
  - destruct Hfresh. rewrite E. by apply list_elem_of_fmap_2.
  - destruct Hfresh. rewrite <-E. by apply list_elem_of_fmap_2.
  - by apply IH.
Qed.

(** X22: when the deck names are distinct, the returned tree does not
    depend on the order in which the deck table lists the decks. *)
Theorem tree_order_independent (decks decks' : list (str * deck)) :
  decks ≡ₚ decks' → NoDup (d_name <$> Dict.values decks) →
  build_deck_tree decks = build_deck_tree decks'.
Proof.
  intros Hperm Hnd. unfold build_deck_tree, build_state.
  assert (sorted_by_name (Dict.values decks) = sorted_by_name (Dict.values decks')) as ->;
    [|done].
  assert (Dict.values decks ≡ₚ Dict.values decks') as Hvalues.
  { unfold Dict.values. by rewrite Hperm. }
  apply (StronglySorted_unique_strong name_le); try apply sorted_by_name_sorted.
  - intros x1 x2 Hx1 Hx2 H12 H21.
    apply (proj1 (sorted_by_name_elem _ _)) in Hx1, Hx2.
    rewrite <-Hvalues in Hx2.
    apply (NoDup_fmap_inj d_name (Dict.values decks)); try done.
    by apply str_le_antisym.
  - by rewrite !sorted_by_name_perm.
Qed.

(** ** The further statements at sample inputs *)

(** A property of what follows every occurrence of [pat] in [s] may be
    checked suffix by suffix. *)
Lemma occurrences_check (pat s : str) (P : str → Prop) :
  Forall (λ x, Py.startswith pat x = true → P (drop (length pat) x)) (tails s) →
  ∀ pre post, s = pre ++ pat ++ post → P post.
Proof.
  intros Hall pre post ->. rewrite Forall_forall in Hall.
  specialize (Hall (pat ++ post) (tails_suffix _ _)).
  rewrite startswith_prefix, drop_app_length in Hall. by apply Hall.
Qed.

Lemma no_bracket_no_sound (t : str) :
  Re.c_lbrack ∉ t → ∀ pre post, t ≠ pre ++ lit "[sound:" ++ post.
Proof.
  intros Ht pre post ->. apply Ht. lit_compute. rewrite !elem_of_app. right. left. left.
Qed.

Lemma clean_html_trimmed_sample :
  head (clean_html (lit "  <b>hi</b> there ")) = Some 104%N ∧ Py.isspace 104%N = false.
Proof.
  split; [reflexivity|].
  apply (clean_html_trimmed (lit "  <b>hi</b> there ") 104%N). by left.
Defined.

Lemma clean_html_of_plain_text_sample :
  clean_html (lit "  3 > 2  ") = Py.strip (lit "  3 > 2  ").
Proof.
  apply clean_html_of_plain_text; [by_evaluation|by_evaluation|].
  apply no_bracket_no_sound. by_evaluation.
Defined.

Lemma clean_html_drops_sound_sample :
  clean_html (lit "say " ++ lit "[sound:" ++ lit "a.mp3" ++ Re.c_rbrack :: lit " now")
  = Py.strip (lit "say " ++ lit " now").
Proof.
  apply clean_html_drops_sound; [plain_text|plain_text|done|by_evaluation].
Defined.

Lemma clean_html_drops_tag_sample :
  clean_html (lit "very " ++ Re.c_lt :: lit "b" ++ Re.c_gt :: lit "bold")
  = Py.strip (lit "very " ++ lit "bold").
Proof.
  apply clean_html_drops_tag;
    [plain_text|plain_text|done|by_evaluation|by_evaluation|by_evaluation|reflexivity].
Defined.

Lemma clean_html_decodes_entity_sample :
  clean_html (lit "Q" ++ lit "&amp;" ++ lit "A") = Py.strip (lit "Q" ++ lit "&" ++ lit "A").
Proof.
  apply clean_html_decodes_entity; [|plain_text|plain_text|reflexivity].
  unfold entities. do 3 right. left.
Defined.

Lemma back_clean_lines_sample :
  backClean (make_card (read_notes (notes_table cards_db))
               {| card_id := 10; card_nid := 1; card_did := 5; card_ord := 0 |})
  = Py.strip (Py.join [Re.c_nl]
      (filter (λ part, Py.strip part ≠ []) [lit "Back 1"; []; lit "Back 2"])).
Proof.
  eapply (back_clean_lines _ _ _ (lit "Front text")); [reflexivity|reflexivity|].
  repeat constructor; by_evaluation.
Defined.

Lemma fix_media_paths_unchanged_sample :
  fix_media_paths (lit "<img src=" ++ quoted "media/cat.jpg" ++ lit "> <img src="
                   ++ quoted "http://x/y.png" ++ lit ">")
  = lit "<img src=" ++ quoted "media/cat.jpg" ++ lit "> <img src="
    ++ quoted "http://x/y.png" ++ lit ">".
Proof.
  apply fix_media_paths_unchanged.
  - apply (occurrences_check (lit "src=" ++ [Re.c_quote]) _
             (λ post, Py.startswith (lit "media/") post = true
                      ∨ Py.startswith (lit "http") post = true)).
    vm_compute tails.
    repeat (constructor; [intros H; first [by vm_compute in H|by left|by right]|]).
    constructor.
  - apply no_bracket_no_sound. by_evaluation.
Defined.

Lemma fix_media_paths_sound_sample :
  fix_media_paths (lit "Listen: " ++ lit "[sound:" ++ lit "a.mp3" ++ Re.c_rbrack :: lit "!")
  = lit "Listen: " ++ audio_element (lit "a.mp3") ++ lit "!".
Proof.
  apply fix_media_paths_sound; [by_evaluation|by_evaluation|done|by_evaluation].
Defined.

Lemma fix_media_paths_src_sample :
  fix_media_paths (lit "<img " ++ lit "src=" ++ Re.c_quote :: lit "cat.jpg"
                   ++ Re.c_quote :: lit ">")
  = lit "<img " ++ lit "src=" ++ Re.c_quote :: lit "media/" ++ lit "cat.jpg"
    ++ Re.c_quote :: lit ">".
Proof.
  apply fix_media_paths_src; [by_evaluation|by_evaluation|done|reflexivity|reflexivity].
Defined.

Lemma cards_in_row_order_sample :
  ∃ out, parse_anki_collection Sim.lower (Sim.loads []) cards_db = Ok out
    ∧ cards out
      = make_card (read_notes (notes_table cards_db))
          <$> [{| card_id := 10; card_nid := 1; card_did := 5; card_ord := 0 |};
               {| card_id := 12; card_nid := 99; card_did := 5; card_ord := 1 |}].
Proof.
  eexists. split; [reflexivity|].
  apply (cards_in_row_order Sim.lower (Sim.loads []) cards_db _ eq_refl).
Defined.

Lemma parse_decks_exact_sample :
  ∃ dks,
    parse_decks Sim.lower (decks_loads [("1", "Default"); ("2", "Math")]%string)
      (decks_db [("1", "Default"); ("2", "Math")]%string) = Ok dks
    ∧ ((lit "2", {| d_id := lit "2"; d_name := lit "Math" |}) ∈ dks
       ↔ ∃ info, (lit "2", info) ∈ Dict.of_pairs
                   [(lit "1", JObj [(lit "name", JStr (lit "Default"))]);
                    (lit "2", JObj [(lit "name", JStr (lit "Math"))])]
           ∧ deck_name info = Ok (lit "Math")
           ∧ (Sim.lower (lit "Math") ∉ default_labels) ∧ lit "2" = lit "2").
Proof.
  eexists. split; [reflexivity|].
  apply (parse_decks_exact Sim.lower (decks_loads [("1", "Default"); ("2", "Math")]%string)
           (decks_db [("1", "Default"); ("2", "Math")]%string) _ _
           (lit "2") {| d_id := lit "2"; d_name := lit "Math" |});
    reflexivity.
Defined.

Lemma extract_media_count_sample :
  ∃ w', extract_media (Sim.loads [(media_document, media_value)])
          (lit "deck.colpkg") (lit "out") (archive_world media_archive)
        = (Ok 1, w', [])
    ∧ 1 = length (in_archive media_archive
                    (Dict.of_pairs [(lit "0", JStr (lit "cat.jpg"));
                                    (lit "1", JStr (lit "missing.png"))])).
Proof.
  eexists. split; [reflexivity|].
  refine (proj1 (extract_media_count (Sim.loads [(media_document, media_value)])
                   (lit "deck.colpkg") (lit "out") (archive_world media_archive)
                   _ _ media_archive _ 1 [] _ eq_refl eq_refl eq_refl eq_refl)).
  intros p d w0. simpl. unfold Sim.write. by destruct (Sim.isdir p w0).
Defined.

Lemma extract_media_without_map_sample :
  ∃ w1, extract_media (Sim.loads []) (lit "deck.colpkg") (lit "out")
          (archive_world [(lit "collection.anki2", [1%N])])
        = (Ok 0, w1, [no_media_mapping]).
Proof.
  eexists.
  eapply (extract_media_without_map (Sim.loads []) (lit "deck.colpkg") (lit "out")
            (archive_world [(lit "collection.anki2", [1%N])]));
    [reflexivity|reflexivity|by left].
Defined.

Lemma tree_paths_are_joined_names_sample :
  forallb (joined_paths []) (build_deck_tree sample_decks) = true.
Proof. apply tree_paths_are_joined_names. each_deck. Defined.

Lemma deck_node_keeps_id_sample :
  ∃ t, t ∈ tree_nodes (build_deck_tree sample_decks)
       ∧ node_fullPath t = lit "Math::Algebra::Rings"
       ∧ ∃ k' dk', (k', dk') ∈ sample_decks
           ∧ d_name dk' = lit "Math::Algebra::Rings" ∧ node_id t = d_id dk'.
Proof.
  apply (deck_node_keeps_id sample_decks (lit "2")
           {| d_id := lit "2"; d_name := lit "Math::Algebra::Rings" |}); [each_deck|].
  right. left.
Defined.

Lemma tree_ids_exact_sample :
  let t := mkDeckNode (lit "virtual_Math::Algebra") (lit "Algebra") (lit "Math::Algebra")
             [mkDeckNode (lit "2") (lit "Rings") (lit "Math::Algebra::Rings") []] in
  (∃ k dk, (k, dk) ∈ sample_decks ∧ d_name dk = node_fullPath t ∧ node_id t = d_id dk)
  ∨ ((∀ k dk, (k, dk) ∈ sample_decks → d_name dk ≠ node_fullPath t)
     ∧ node_id t = lit "virtual_" ++ node_fullPath t).
Proof.
  apply (tree_ids_exact sample_decks); [each_deck|].
  by eapply list_elem_of_lookup_2 with (i := 1).
Defined.

Lemma card_of_note_sample :
  let card := make_card (read_notes (notes_table cards_db))
                {| card_id := 10; card_nid := 1; card_did := 5; card_ord := 0 |} in
  let back_text :=
    Py.join (lit "<br>") (filter (λ part, Py.strip part ≠ []) [lit "Back 1"; []; lit "Back 2"]) in
  front card = fix_media_paths (lit "Front text")
  ∧ frontClean card = clean_html (lit "Front text")
  ∧ back card = fix_media_paths back_text ∧ backClean card = clean_html back_text.
Proof.
  eapply (card_of_note (notes_table cards_db) _
            {| card_id := 10; card_nid := 1; card_did := 5; card_ord := 0 |});
    [repeat constructor; by_evaluation|left|reflexivity|reflexivity|done|reflexivity].
Defined.

Lemma tree_order_independent_sample :
  build_deck_tree sample_decks
  = build_deck_tree
      [(lit "2", {| d_id := lit "2"; d_name := lit "Math::Algebra::Rings" |});
       (lit "1", {| d_id := lit "1"; d_name := lit "Math" |})].
Proof.
  apply tree_order_independent; [apply Permutation_swap|by_evaluation].
Defined.

